(** * Todo DApp: the state-reconciliation core of [src/App.tsx]

    A shallow embedding of the read path ([loadTasksAndEvents]), the three
    write handlers ([createTask], [updateTask], [completeTask]) and the slice
    of the render function that shows the event feed, together with the
    properties the specification states about them.

    - JavaScript [bigint] values are [Z]; strings are sequences of UTF-16
      code units ([list N]), which is what [String.prototype.trim] inspects.
    - React state is one record, [Store]; the handlers run in a small
      state-and-exception monad over the store, the ledger ("world") and the
      trace of calls made to the ledger client.
    - The ledger client (viem's public client and wallet client) is a
      parameter: every theorem holds for every behaviour of the ledger. *)

From Stdlib Require Import String Ascii.
From Stdlib Require Import List ZArith NArith Bool Lia.
From Stdlib Require Import Permutation Sorted.
Import ListNotations.

Set Implicit Arguments.

Local Open Scope Z_scope.

(** ** JavaScript strings *)

Module JsString.

(** A string is a sequence of 16-bit code units. *)
Definition t := list N.

(** An ASCII literal of the source, as code units. *)
Definition lit (s : string) : t :=
  List.map N_of_ascii (list_ascii_of_string s).

(** ECMAScript [WhiteSpace]: TAB, VT, FF, SP, NBSP, ZWNBSP and the
    Unicode space separators (category Zs). *)
Definition isWhiteSpace (c : N) : bool :=
  ((c =? 0x0009) || (c =? 0x000B) || (c =? 0x000C) || (c =? 0x0020)
   || (c =? 0x00A0) || (c =? 0x1680)
   || ((0x2000 <=? c) && (c <=? 0x200A))
   || (c =? 0x202F) || (c =? 0x205F) || (c =? 0x3000) || (c =? 0xFEFF))%N.

(** ECMAScript [LineTerminator]: LF, CR, LS, PS. *)
Definition isLineTerminator (c : N) : bool :=
  ((c =? 0x000A) || (c =? 0x000D) || (c =? 0x2028) || (c =? 0x2029))%N.

(** What [trim] strips: white space and line terminators (the
    "whitespace" of [String.prototype.trim]). *)
Definition isTrimmable (c : N) : bool :=
  isWhiteSpace c || isLineTerminator c.

Fixpoint trimStart (s : t) : t :=
  match s with
  | [] => []
  | c :: s' => if isTrimmable c then trimStart s' else s
  end.

Definition trimEnd (s : t) : t := rev (trimStart (rev s)).

(** [String.prototype.trim]. *)
Definition trim (s : t) : t := trimEnd (trimStart s).

(** Truthiness of a string: only the empty string is falsy. *)
Definition truthy (s : t) : bool :=
  match s with [] => false | _ :: _ => true end.

(** "Empty or whitespace-only": every code unit is one that [trim]
    strips. *)
Definition whitespaceOnly (s : t) : Prop :=
  Forall (fun c => isTrimmable c = true) s.

End JsString.

Definition jsstring : Type := JsString.t.

(** ** [Array.prototype.sort]

    ECMAScript requires [sort] to be stable, and for a consistent comparator
    the sorted stable arrangement is unique ([sort_unique] below), so the
    algorithm the engine uses is not observable.  The comparator returns a
    number of which [sort] looks at the sign only. *)

Section ArraySort.

Variable A : Type.
Variable comparefn : A -> A -> Z.

Fixpoint sort_insert (x : A) (l : list A) : list A :=
  match l with
  | [] => [x]
  | y :: l' =>
      if comparefn x y <=? 0 then x :: y :: l' else y :: sort_insert x l'
  end.

Fixpoint sort (l : list A) : list A :=
  match l with
  | [] => []
  | x :: l' => sort_insert x (sort l')
  end.

End ArraySort.

(** Being sorted by a key, and the entries of one key: the vocabulary in
    which the behaviour of [sort] is stated. *)
Definition keyLe (A : Type) (key : A -> Z) (a b : A) : Prop := key a <= key b.
Definition hasKey (A : Type) (key : A -> Z) (k : Z) (a : A) : bool :=
  key a =? k.

(** [Number(n)] for a bigint [n]: the conversion rounds to the nearest
    double, which keeps the sign (and zero exactly for [0n]); the sign is all
    that [sort] uses, so the integer itself stands for the double. *)
Definition Number (n : Z) : Z := n.

(** ** Data model *)

(** [interface Task]. *)
Module Task.
Record t := mk { id : Z; description : jsstring; completed : bool }.
End Task.

Inductive EventName := TaskCreated | TaskUpdated | TaskCompleted.

Definition EventName_eqb (a b : EventName) : bool :=
  match a, b with
  | TaskCreated, TaskCreated | TaskUpdated, TaskUpdated
  | TaskCompleted, TaskCompleted => true
  | _, _ => false
  end.

(** [interface Event]: the normalized entry of the event feed. *)
Module Event.
Record t := mk {
  type : EventName;
  id : Z;
  description : option jsstring;
  blockNumber : Z;
  transactionHash : jsstring
}.
End Event.

(** A raw log record as [client.getLogs] returns it for the three events of
    the contract ABI: [TaskCreated(id, description)],
    [TaskUpdated(id, description)], [TaskCompleted(id)]. *)
Module Log.
Record Args := mkArgs { id : Z; description : option jsstring }.
Record t := mk {
  eventName : EventName;
  args : Args;
  blockNumber : Z;
  transactionHash : jsstring
}.

(** The decoded arguments have the shape of the event: a description for
    [TaskCreated] and [TaskUpdated], none for [TaskCompleted]. *)
Definition well_shaped (l : t) : bool :=
  match eventName l, description (args l) with
  | TaskCompleted, None => true
  | TaskCompleted, Some _ => false
  | _, Some _ => true
  | _, None => false
  end.
End Log.

(** ** The read path, pure part *)

(** [logs.map(log => ({ type, id, blockNumber, transactionHash }))]; the
    [description] line of the object literal is commented out in the source,
    so the property is left undefined. *)
Definition processEvent (log : Log.t) : Event.t :=
  {| Event.type := Log.eventName log;
     Event.id := Log.id (Log.args log);
     Event.description := None;
     Event.blockNumber := Log.blockNumber log;
     Event.transactionHash := Log.transactionHash log |}.

Definition processedEvents (logs : list Log.t) : list Event.t :=
  List.map processEvent logs.

(** [(a, b) => Number(b.blockNumber - a.blockNumber)]. *)
Definition compareEvents (a b : Event.t) : Z :=
  Number (Event.blockNumber b - Event.blockNumber a).

(** [(a, b) => Number(a.id - b.id)]. *)
Definition compareTasks (a b : Task.t) : Z :=
  Number (Task.id a - Task.id b).

(** The argument of [setEvents]. *)
Definition eventFeed (logs : list Log.t) : list Event.t :=
  sort compareEvents (processedEvents logs).

(** [Set<bigint>]: a duplicate-free sequence in insertion order. *)
Module BigintSet.
Definition t := list Z.
Definition empty : t := [].
Fixpoint has (x : Z) (s : t) : bool :=
  match s with
  | [] => false
  | y :: s' => (x =? y) || has x s'
  end.
Definition add (x : Z) (s : t) : t := if has x s then s else s ++ [x].
(** [Array.from(set)]. *)
Definition toArray (s : t) : list Z := s.
End BigintSet.

(** [logs.forEach(log => { if (log.eventName === 'TaskCreated')
    taskIds.add(log.args.id) })]. *)
Definition collectStep (taskIds : BigintSet.t) (log : Log.t) : BigintSet.t :=
  if EventName_eqb (Log.eventName log) TaskCreated
  then BigintSet.add (Log.id (Log.args log)) taskIds
  else taskIds.

Definition collectTaskIds (logs : list Log.t) : BigintSet.t :=
  fold_left collectStep logs BigintSet.empty.

(** [taskResults.filter(task => task !== null)]. *)
Fixpoint filterNonNull (A : Type) (l : list (option A)) : list A :=
  match l with
  | [] => []
  | Some a :: l' => a :: filterNonNull l'
  | None :: l' => filterNonNull l'
  end.

(** ** The rendered event feed: [events.slice(0, 20).map(...)] *)

Module Card.
(** One rendered entry; the React key is
    [`${event.transactionHash}-${index}`]. *)
Record t := mk { keyHash : jsstring; keyIndex : nat; event : Event.t }.
End Card.

Definition slice0 (A : Type) (n : nat) (l : list A) : list A := firstn n l.

Fixpoint mapi_from (A B : Type) (f : A -> nat -> B) (i : nat) (l : list A)
  : list B :=
  match l with
  | [] => []
  | x :: l' => f x i :: mapi_from f (S i) l'
  end.

Definition renderEvents (events : list Event.t) : list Card.t :=
  match events with
  | [] => []
  | _ =>
      mapi_from
        (fun event index =>
           {| Card.keyHash := Event.transactionHash event;
              Card.keyIndex := index;
              Card.event := event |})
        0%nat (slice0 20 events)
  end.

(** ** The ledger client and the view state *)

(** Outcome of an awaited call: a value, or an exception with its
    [message]. *)
Inductive Result (A : Type) :=
| Ok (a : A)
| Throw (message : jsstring).
Arguments Throw {A} message.

(** The functions of [CONTRACT_ABI] that are written to. *)
Inductive FunctionName := FnCompleteTask | FnCreateTask | FnUpdateTask.

Inductive AbiValue :=
| Uint256 (n : Z)
| AbiString (s : jsstring).

(** The parameters of [client.simulateContract] that vary between calls
    (address and ABI are constants). *)
Record SimulateParams := mkSimulate {
  functionName : FunctionName;
  args : list AbiValue;
  sim_account : jsstring
}.

Section Client.

(** The ledger, the prepared call ([request]) that a simulation returns,
    and the wallet client are opaque to the application. *)
Variables World Request WalletClient : Type.

(** viem's public client, as the application uses it.  Reads and the
    dry-run do not change the ledger; submitting and waiting may. *)
Record Client := mkClient {
  getLogs : World -> Result (list Log.t);
  readContract : World -> Z -> Result Task.t;
  simulateContract : World -> SimulateParams -> Result Request;
  writeContract :
    WalletClient -> World -> Request -> Result jsstring * World;
  waitForTransactionReceipt : World -> jsstring -> Result unit * World
}.

(** The calls that reach the ledger client, in the order they are made. *)
Inductive Call :=
| CallGetLogs
| CallReadContract (id : Z)
| CallSimulateContract (p : SimulateParams)
| CallWriteContract (request : Request)
| CallWaitForTransactionReceipt (hash : jsstring).

(** The [useState] cells of [TodoDApp]. *)
Record Store := mkStore {
  account : jsstring;
  tasks : list Task.t;
  events : list Event.t;
  newTaskDescription : jsstring;
  editingTask : option (Z * jsstring);
  loading : bool;
  error : jsstring;
  walletClient : option WalletClient;
  balance : jsstring
}.

Definition with_tasks (v : list Task.t) (s : Store) : Store :=
  mkStore (account s) v (events s) (newTaskDescription s) (editingTask s)
          (loading s) (error s) (walletClient s) (balance s).
Definition with_events (v : list Event.t) (s : Store) : Store :=
  mkStore (account s) (tasks s) v (newTaskDescription s) (editingTask s)
          (loading s) (error s) (walletClient s) (balance s).
Definition with_newTaskDescription (v : jsstring) (s : Store) : Store :=
  mkStore (account s) (tasks s) (events s) v (editingTask s)
          (loading s) (error s) (walletClient s) (balance s).
Definition with_editingTask (v : option (Z * jsstring)) (s : Store)
  : Store :=
  mkStore (account s) (tasks s) (events s) (newTaskDescription s) v
          (loading s) (error s) (walletClient s) (balance s).
Definition with_loading (v : bool) (s : Store) : Store :=
  mkStore (account s) (tasks s) (events s) (newTaskDescription s)
          (editingTask s) v (error s) (walletClient s) (balance s).
Definition with_error (v : jsstring) (s : Store) : Store :=
  mkStore (account s) (tasks s) (events s) (newTaskDescription s)
          (editingTask s) (loading s) v (walletClient s) (balance s).

(** Everything a handler can touch. *)
Record Sys := mkSys {
  store : Store;
  world : World;
  trace : list Call
}.

(** *** The monad of handlers: state and exceptions *)

Definition M (A : Type) : Type := Sys -> Result A * Sys.

Definition ret (A : Type) (a : A) : M A := fun s => (Ok a, s).

Definition bind (A B : Type) (m : M A) (k : A -> M B) : M B :=
  fun s =>
    match m s with
    | (Ok a, s') => k a s'
    | (Throw e, s') => (Throw e, s')
    end.

(** [try { body } catch (err) { handler } finally { final }]. *)
Definition try_catch_finally
  (body : M unit) (handler : jsstring -> M unit) (final : M unit)
  : M unit :=
  fun s =>
    let (r, s1) :=
      match body s with
      | (Ok a, s') => (Ok a, s')
      | (Throw e, s') => handler e s'
      end in
    match final s1 with
    | (Ok _, s2) => (r, s2)
    | (Throw e, s2) => (Throw e, s2)
    end.

(** [try { return body } catch { return fallback }]. *)
Definition try_catch (A : Type) (body : M A) (fallback : M A) : M A :=
  fun s =>
    match body s with
    | (Ok a, s') => (Ok a, s')
    | (Throw _, s') => fallback s'
    end.

(** [Promise.all(ids.map(f))]: the calls are issued in array order. *)
Fixpoint promiseAll (A B : Type) (f : A -> M B) (l : list A)
  : M (list B) :=
  match l with
  | [] => ret []
  | x :: l' =>
      bind (f x) (fun y => bind (promiseAll f l') (fun ys => ret (y :: ys)))
  end.

Definition modify (f : Store -> Store) : M unit :=
  fun s => (Ok tt, mkSys (f (store s)) (world s) (trace s)).

Definition record (c : Call) : Sys -> Sys :=
  fun s => mkSys (store s) (world s) (trace s ++ [c]).

Definition setTasks v := modify (with_tasks v).
Definition setEvents v := modify (with_events v).
Definition setNewTaskDescription v := modify (with_newTaskDescription v).
Definition setEditingTask v := modify (with_editingTask v).
Definition setLoading v := modify (with_loading v).
Definition setError v := modify (with_error v).

Variable client : Client.

Definition call_getLogs : M (list Log.t) :=
  fun s => (getLogs client (world s), record CallGetLogs s).

Definition call_readContract (id : Z) : M Task.t :=
  fun s => (readContract client (world s) id, record (CallReadContract id) s).

Definition call_simulateContract (p : SimulateParams) : M Request :=
  fun s =>
    (simulateContract client (world s) p, record (CallSimulateContract p) s).

Definition call_writeContract (w : WalletClient) (request : Request)
  : M jsstring :=
  fun s =>
    let (r, world') := writeContract client w (world s) request in
    (r, mkSys (store s) world' (trace s ++ [CallWriteContract request])).

Definition call_waitForTransactionReceipt (hash : jsstring) : M unit :=
  fun s =>
    let (r, world') := waitForTransactionReceipt client (world s) hash in
    (r, mkSys (store s) world'
              (trace s ++ [CallWaitForTransactionReceipt hash])).

Notation "x <- m ;; k" := (bind m (fun x => k))
  (at level 61, m at next level, right associativity).
Notation "m ;;; k" := (bind m (fun _ => k))
  (at level 61, right associativity).

(** *** [loadTasksAndEvents] *)

Definition readTask (id : Z) : M (option Task.t) :=
  try_catch (task <- call_readContract id ;; ret (Some task)) (ret None).

Definition loadTasksAndEvents : M unit :=
  try_catch_finally
    (setLoading true ;;;
     logs <- call_getLogs ;;
     setEvents (sort compareEvents (processedEvents logs)) ;;;
     let taskIds := collectTaskIds logs in
     taskResults <- promiseAll readTask (BigintSet.toArray taskIds) ;;
     let validTasks := filterNonNull taskResults in
     setTasks (sort compareTasks validTasks))
    (fun message =>
       setError (JsString.lit "Failed to load tasks: " ++ message))
    (setLoading false).

(** *** The write handlers *)

(** [createTask], [updateTask] and [completeTask]; each reads the state
    of the render it was created in ([s0]) and never reads a cell after
    setting it. *)
Definition createTask : M unit :=
  fun s0 =>
    let st := store s0 in
    match JsString.truthy (JsString.trim (newTaskDescription st)),
          walletClient st with
    | true, Some wallet =>
        try_catch_finally
          (setLoading true ;;;
           setError [] ;;;
           request <- call_simulateContract
             (mkSimulate FnCreateTask
                [AbiString (JsString.trim (newTaskDescription st))]
                (account st)) ;;
           hash <- call_writeContract wallet request ;;
           call_waitForTransactionReceipt hash ;;;
           setNewTaskDescription [] ;;;
           loadTasksAndEvents)
          (fun message =>
             setError (JsString.lit "Failed to create task: " ++ message))
          (setLoading false)
          s0
    | _, _ => ret tt s0
    end.

Definition updateTask : M unit :=
  fun s0 =>
    let st := store s0 in
    match editingTask st, walletClient st with
    | Some (id, description), Some wallet =>
        if JsString.truthy (JsString.trim description) then
          try_catch_finally
            (setLoading true ;;;
             setError [] ;;;
             request <- call_simulateContract
               (mkSimulate FnUpdateTask
                  [Uint256 id; AbiString (JsString.trim description)]
                  (account st)) ;;
             hash <- call_writeContract wallet request ;;
             call_waitForTransactionReceipt hash ;;;
             setEditingTask None ;;;
             loadTasksAndEvents)
            (fun message =>
               setError (JsString.lit "Failed to update task: " ++ message))
            (setLoading false)
            s0
        else ret tt s0
    | _, _ => ret tt s0
    end.

Definition completeTask (id : Z) : M unit :=
  fun s0 =>
    let st := store s0 in
    match walletClient st with
    | Some wallet =>
        try_catch_finally
          (setLoading true ;;;
           setError [] ;;;
           request <- call_simulateContract
             (mkSimulate FnCompleteTask [Uint256 id] (account st)) ;;
           hash <- call_writeContract wallet request ;;
           call_waitForTransactionReceipt hash ;;;
           loadTasksAndEvents)
          (fun message =>
             setError (JsString.lit "Failed to complete task: " ++ message))
          (setLoading false)
          s0
    | None => ret tt s0
    end.

(** The write intents the presentation layer issues. *)
Inductive Intent :=
| Create
| Update
| Complete (id : Z).

Definition dispatch (i : Intent) : M unit :=
  match i with
  | Create => createTask
  | Update => updateTask
  | Complete id => completeTask id
  end.

(** *** Vocabulary of the properties *)

(** The outcome of one point-read as [readTask] sees it. *)
Definition pointRead (w : World) (id : Z) : option Task.t :=
  match readContract client w id with
  | Ok task => Some task
  | Throw _ => None
  end.

(** The tasks a pass over [logs] hands to [setTasks] when the ledger is
    [w]. *)
Definition reconstructedTasks (w : World) (logs : list Log.t)
  : list Task.t :=
  sort compareTasks
    (filterNonNull (List.map (pointRead w) (collectTaskIds logs))).

(** The text an intent carries: the input box for a create, the edit box
    for an update, nothing for a complete. *)
Definition intentDescription (st : Store) (i : Intent) : option jsstring :=
  match i with
  | Create => Some (newTaskDescription st)
  | Update => option_map snd (editingTask st)
  | Complete _ => None
  end.

(** The message prefix of each handler's [catch]. *)
Definition failurePrefix (i : Intent) : jsstring :=
  match i with
  | Create => JsString.lit "Failed to create task: "
  | Update => JsString.lit "Failed to update task: "
  | Complete _ => JsString.lit "Failed to complete task: "
  end.

(** An intent that passes the entry guard, with the wallet it will submit
    through and the call it will simulate. *)
Definition acceptedCall (st : Store) (i : Intent)
  : option (WalletClient * SimulateParams) :=
  match walletClient st with
  | None => None
  | Some wallet =>
      match i with
      | Create =>
          match JsString.trim (newTaskDescription st) with
          | [] => None
          | d => Some (wallet, mkSimulate FnCreateTask [AbiString d]
                                          (account st))
          end
      | Update =>
          match editingTask st with
          | None => None
          | Some (id, description) =>
              match JsString.trim description with
              | [] => None
              | d => Some (wallet, mkSimulate FnUpdateTask
                                     [Uint256 id; AbiString d] (account st))
              end
          end
      | Complete id =>
          Some (wallet, mkSimulate FnCompleteTask [Uint256 id] (account st))
      end
  end.

(** What the handler does to the store between a confirmed write and the
    reload. *)
Definition epilogue (i : Intent) : Store -> Store :=
  match i with
  | Create => with_newTaskDescription []
  | Update => with_editingTask None
  | Complete _ => fun st => st
  end.

(** A write fails at the simulate, the submit or the confirmation stage
    with message [e], leaving the ledger in [w']. *)
Inductive WriteFails (w : World) (wallet : WalletClient)
  (p : SimulateParams) (e : jsstring) : World -> Prop :=
| FailsAtSimulate :
    simulateContract client w p = Throw e ->
    WriteFails w wallet p e w
| FailsAtSubmit request w1 :
    simulateContract client w p = Ok request ->
    writeContract client wallet w request = (Throw e, w1) ->
    WriteFails w wallet p e w1
| FailsAtConfirmation request hash w1 w2 :
    simulateContract client w p = Ok request ->
    writeContract client wallet w request = (Ok hash, w1) ->
    waitForTransactionReceipt client w1 hash = (Throw e, w2) ->
    WriteFails w wallet p e w2.

End Client.

Arguments CallGetLogs {Request}.
Arguments CallReadContract {Request} id.
Arguments CallSimulateContract {Request} p.
Arguments CallWaitForTransactionReceipt {Request} hash.

(** The string arguments of a contract call. *)
Fixpoint stringArgs (l : list AbiValue) : list jsstring :=
  match l with
  | [] => []
  | AbiString s :: l' => s :: stringArgs l'
  | Uint256 _ :: l' => stringArgs l'
  end.

(** No leading and no trailing whitespace. *)
Definition noOuterWhitespace (s : jsstring) : Prop :=
  (forall c r, s = c :: r -> JsString.isTrimmable c = false) /\
  (forall r c, s = r ++ [c] -> JsString.isTrimmable c = false).

Definition isCreated (log : Log.t) : bool :=
  EventName_eqb (Log.eventName log) TaskCreated.

(** The id [i] appears in a [TaskCreated] record of [logs]. *)
Definition createdIn (logs : list Log.t) (i : Z) : Prop :=
  exists log, In log logs /\ Log.eventName log = TaskCreated
              /\ Log.id (Log.args log) = i.

(** The feed is non-increasing in block number. *)
Definition heightDescending (l : list Event.t) : Prop :=
  StronglySorted (fun a b => Event.blockNumber a >= Event.blockNumber b) l.

(** The entries of block [h], in order. *)
Definition atHeight (h : Z) (l : list Event.t) : list Event.t :=
  filter (fun e => Event.blockNumber e =? h) l.

(** ** A reference ledger for the examples

    The contract itself is not part of the application; this in-memory
    stand-in with the interface of [CONTRACT_ABI] serves to run the handlers
    on concrete ledgers.  [unreadable] lists ids whose point-read fails. *)

Module Demo.

Record World := mkWorld {
  chainLogs : list Log.t;
  chainTasks : list Task.t;
  unreadable : list Z;
  height : Z
}.

Definition Request : Type := SimulateParams.
Definition WalletClient : Type := unit.

Definition findTask (w : World) (id : Z) : option Task.t :=
  find (fun t => Task.id t =? id) (chainTasks w).

Definition getTask (w : World) (id : Z) : Result Task.t :=
  if BigintSet.has id (unreadable w)
  then Throw (JsString.lit "HTTP request failed")
  else match findTask w id with
       | Some t => Ok t
       | None => Throw (JsString.lit "task not found")
       end.

Definition simulate (w : World) (p : SimulateParams) : Result Request :=
  match functionName p, args p with
  | FnCreateTask, [AbiString _] => Ok p
  | FnUpdateTask, [Uint256 id; AbiString _] =>
      match findTask w id with
      | Some _ => Ok p
      | None => Throw (JsString.lit "task not found")
      end
  | FnCompleteTask, [Uint256 id] =>
      match findTask w id with
      | Some t =>
          if Task.completed t
          then Throw (JsString.lit "already completed")
          else Ok p
      | None => Throw (JsString.lit "task not found")
      end
  | _, _ => Throw (JsString.lit "bad call")
  end.

Definition txHash : jsstring := JsString.lit "0xabc".

Definition emit (name : EventName) (id : Z) (d : option jsstring)
  (w : World) : list Log.t :=
  chainLogs w ++ [Log.mk name (Log.mkArgs id d) (height w + 1) txHash].

Definition apply (w : World) (p : Request) : World :=
  match functionName p, args p with
  | FnCreateTask, [AbiString d] =>
      let id := Z.of_nat (List.length (chainTasks w)) + 1 in
      mkWorld (emit TaskCreated id (Some d) w)
              (chainTasks w ++ [Task.mk id d false])
              (unreadable w) (height w + 1)
  | FnUpdateTask, [Uint256 id; AbiString d] =>
      mkWorld (emit TaskUpdated id (Some d) w)
              (List.map (fun t => if Task.id t =? id
                                  then Task.mk id d (Task.completed t)
                                  else t) (chainTasks w))
              (unreadable w) (height w + 1)
  | FnCompleteTask, [Uint256 id] =>
      mkWorld (emit TaskCompleted id None w)
              (List.map (fun t => if Task.id t =? id
                                  then Task.mk id (Task.description t) true
                                  else t) (chainTasks w))
              (unreadable w) (height w + 1)
  | _, _ => w
  end.

Definition client : Client World Request WalletClient :=
  mkClient
    (fun w => Ok (chainLogs w))
    getTask
    simulate
    (fun _ w request => (Ok txHash, apply w request))
    (fun w _ => (Ok tt, w)).

(** A wallet that declines every request, and a ledger whose log query
    fails. *)
Definition decliningClient : Client World Request WalletClient :=
  mkClient
    (fun w => Ok (chainLogs w))
    getTask
    simulate
    (fun _ w _ => (Throw (JsString.lit "User rejected the request."), w))
    (fun w _ => (Ok tt, w)).

Definition emptyStore (wallet : option WalletClient)
  : Store WalletClient :=
  mkStore (JsString.lit "0x01") [] [] [] None false [] wallet
          (JsString.lit "0").

Definition storeTyping (wallet : option WalletClient) (input : string)
  : Store WalletClient :=
  mkStore (JsString.lit "0x01") [] [] (JsString.lit input) None false []
          wallet (JsString.lit "0").

Definition start (st : Store WalletClient) (w : World)
  : Sys World Request WalletClient :=
  mkSys st w [].

(** The ledger of the first end-to-end scenario:
    [Created(1,"a")@10, Updated(1,"b")@12], task 1 reads as
    [{1, "b", false}]. *)
Definition scenarioLogs : list Log.t :=
  [ Log.mk TaskCreated (Log.mkArgs 1 (Some (JsString.lit "a"))) 10
           (JsString.lit "0x0a");
    Log.mk TaskUpdated (Log.mkArgs 1 (Some (JsString.lit "b"))) 12
           (JsString.lit "0x0c") ].

Definition scenarioWorld : World :=
  mkWorld scenarioLogs [Task.mk 1 (JsString.lit "b") false] [] 12.

(** Three tasks created in blocks 1 to 3, the second one completed in
    block 3 as well. *)
Definition threeLogs : list Log.t :=
  [ Log.mk TaskCreated (Log.mkArgs 1 (Some (JsString.lit "a"))) 1
           (JsString.lit "0x01");
    Log.mk TaskCreated (Log.mkArgs 2 (Some (JsString.lit "b"))) 2
           (JsString.lit "0x02");
    Log.mk TaskCreated (Log.mkArgs 3 (Some (JsString.lit "c"))) 3
           (JsString.lit "0x03");
    Log.mk TaskCompleted (Log.mkArgs 2 None) 3 (JsString.lit "0x04") ].

Definition threeTasks : list Task.t :=
  [ Task.mk 1 (JsString.lit "a") false;
    Task.mk 2 (JsString.lit "b") true;
    Task.mk 3 (JsString.lit "c") false ].

Definition threeWorld (unreadable : list Z) : World :=
  mkWorld threeLogs threeTasks unreadable 3.

Definition scenarioSys : Sys World Request WalletClient :=
  start (emptyStore (Some tt)) scenarioWorld.

Definition threeSys (unreadable : list Z) : Sys World Request WalletClient :=
  start (emptyStore (Some tt)) (threeWorld unreadable).

Definition createdLog : Log.t :=
  Log.mk TaskCreated (Log.mkArgs 1 (Some (JsString.lit "a"))) 10
         (JsString.lit "0x0a").

(** Stores with a connected wallet and some text typed into the input
    box. *)
Definition blankSys : Sys World Request WalletClient :=
  start (storeTyping (Some tt) "   ") scenarioWorld.

Definition milkSys : Sys World Request WalletClient :=
  start (storeTyping (Some tt) "buy milk") scenarioWorld.

Definition paddedSys : Sys World Request WalletClient :=
  start (storeTyping (Some tt) "  buy milk ") scenarioWorld.

(** A ledger on which every point-read succeeds, but with a record that
    carries another id than the one asked for: 4 for task 1, 9 for every
    other task. *)
Definition mislabelledTask (id : Z) : Task.t :=
  Task.mk (if id =? 1 then 4 else 9) (JsString.lit "x") false.

Definition mislabellingClient : Client World Request WalletClient :=
  mkClient
    (fun w => Ok (chainLogs w))
    (fun _ id => Ok (mislabelledTask id))
    simulate
    (fun _ w request => (Ok txHash, apply w request))
    (fun w _ => (Ok tt, w)).

(** A ledger whose log query fails. *)
Definition offlineClient : Client World Request WalletClient :=
  mkClient
    (fun _ => Throw (JsString.lit "HTTP request failed"))
    getTask
    simulate
    (fun _ w request => (Ok txHash, apply w request))
    (fun w _ => (Ok tt, w)).

Definition milkCall : SimulateParams :=
  mkSimulate FnCreateTask [AbiString (JsString.lit "buy milk")]
             (JsString.lit "0x01").

Definition busyMilkSys : Sys World Request WalletClient :=
  start (with_loading true (storeTyping (Some tt) "buy milk")) scenarioWorld.

Definition completeSecond : SimulateParams :=
  mkSimulate FnCompleteTask [Uint256 2] (JsString.lit "0x01").

End Demo.

(** ** [formatAddress] *)

(** The clamping of a relative index in [String.prototype.slice]: a
    negative index counts from the end. *)
Definition clampIndex (len i : Z) : Z :=
  if i <? 0 then Z.max (len + i) 0 else Z.min i len.

(** [s.slice(start, stop)]; [stop] omitted means the length. *)
Definition slice (s : jsstring) (start : Z) (stop : option Z) : jsstring :=
  let len := Z.of_nat (List.length s) in
  let from := clampIndex len start in
  let to := match stop with
            | None => len
            | Some e => clampIndex len e
            end in
  firstn (Z.to_nat (to - from)) (skipn (Z.to_nat from) s).

(** [`${address.slice(0, 6)}...${address.slice(-4)}`]. *)
Definition formatAddress (address : jsstring) : jsstring :=
  slice address 0 (Some 6) ++ JsString.lit "..." ++ slice address (-4) None.

(** ** Wallet connection: [checkConnection] and [connectWallet] *)

(** A request to the injected provider resolves, or rejects with an error
    object that has a [message] and possibly a [code]. *)
Inductive RpcResult (A : Type) :=
| RpcOk (a : A)
| RpcError (code : option Z) (message : jsstring).
Arguments RpcError {A} code message.

(** The parameter of [wallet_addEthereumChain]. *)
Record AddChainParams := mkAddChain {
  chainId : jsstring;
  chainName : jsstring;
  currencyName : jsstring;
  currencySymbol : jsstring;
  currencyDecimals : Z;
  rpcUrls : list jsstring;
  blockExplorerUrls : list jsstring
}.

Definition liskSepoliaChainId : jsstring := JsString.lit "0x106a".

Definition liskSepoliaParams : AddChainParams :=
  mkAddChain liskSepoliaChainId
    (JsString.lit "Lisk Sepolia Testnet")
    (JsString.lit "Sepolia Ether") (JsString.lit "ETH") 18
    [JsString.lit "https://rpc.sepolia-api.lisk.com"]
    [JsString.lit "https://sepolia-blockscout.lisk.com/"].

(** An EIP-1193 provider, by its answers to the four requests the
    application makes. *)
Record Provider := mkProvider {
  isMetaMask : bool;
  eth_accounts : RpcResult (list jsstring);
  eth_requestAccounts : RpcResult (list jsstring);
  wallet_switchEthereumChain : jsstring -> RpcResult unit;
  wallet_addEthereumChain : AddChainParams -> RpcResult unit
}.

(** [window.ethereum]: a provider that may list several wallets under
    [providers]. *)
Record Ethereum := mkEthereum {
  injected : Provider;
  providers : option (list Provider)
}.

(** [ethereum.providers?.find((p) => p.isMetaMask) || ethereum]. *)
Definition selectProvider (ethereum : Ethereum) : Provider :=
  match providers ethereum with
  | Some ps =>
      match find isMetaMask ps with
      | Some p => p
      | None => injected ethereum
      end
  | None => injected ethereum
  end.

Inductive ProviderRequest :=
| ReqEthAccounts
| ReqEthRequestAccounts
| ReqSwitchEthereumChain (chain : jsstring)
| ReqAddEthereumChain (params : AddChainParams).

Section Wallet.

Variable WalletClient : Type.

(** [createWalletClient({ chain: liskSepolia, transport: custom(provider) })]. *)
Variable createWalletClient : Provider -> WalletClient.

Definition with_account (v : jsstring) (s : Store WalletClient)
  : Store WalletClient :=
  mkStore v (tasks s) (events s) (newTaskDescription s) (editingTask s)
          (loading s) (error s) (walletClient s) (balance s).

Definition with_walletClient (v : option WalletClient)
  (s : Store WalletClient) : Store WalletClient :=
  mkStore (account s) (tasks s) (events s) (newTaskDescription s)
          (editingTask s) (loading s) (error s) v (balance s).

(** The effect run once on mount; its [catch] only logs to the console.
    The result is the new state and the requests made to the provider. *)
Definition checkConnection (ethereum : option Ethereum)
  (st : Store WalletClient) : Store WalletClient * list ProviderRequest :=
  match ethereum with
  | None => (st, [])
  | Some eth =>
      let provider := selectProvider eth in
      match eth_accounts provider with
      | RpcError _ _ => (st, [ReqEthAccounts])
      | RpcOk [] => (st, [ReqEthAccounts])
      | RpcOk (first :: _) =>
          (with_account first
             (with_walletClient (Some (createWalletClient provider)) st),
           [ReqEthAccounts])
      end
  end.

Definition connectFailure (message : jsstring) : jsstring :=
  JsString.lit "Failed to connect wallet: " ++ message.

(** [connectWallet]. *)
Definition connectWallet (ethereum : option Ethereum)
  (st : Store WalletClient) : Store WalletClient * list ProviderRequest :=
  match ethereum with
  | None =>
      (with_error
         (JsString.lit "Please install MetaMask or another Web3 wallet") st,
       [])
  | Some eth =>
      let st1 := with_error [] st in
      let provider := selectProvider eth in
      match eth_requestAccounts provider with
      | RpcError _ message =>
          (with_error (connectFailure message) st1, [ReqEthRequestAccounts])
      | RpcOk [] => (st1, [ReqEthRequestAccounts])
      | RpcOk (first :: _) =>
          let st2 :=
            with_account first
              (with_walletClient (Some (createWalletClient provider)) st1) in
          let switch := ReqSwitchEthereumChain liskSepoliaChainId in
          match wallet_switchEthereumChain provider liskSepoliaChainId with
          | RpcOk _ => (st2, [ReqEthRequestAccounts; switch])
          | RpcError (Some 4902) _ =>
              let add := ReqAddEthereumChain liskSepoliaParams in
              match wallet_addEthereumChain provider liskSepoliaParams with
              | RpcOk _ => (st2, [ReqEthRequestAccounts; switch; add])
              | RpcError _ message =>
                  (with_error (connectFailure message) st2,
                   [ReqEthRequestAccounts; switch; add])
              end
          | RpcError _ _ => (st2, [ReqEthRequestAccounts; switch])
          end
      end
  end.

(** *** The task panel and the create button of the render function *)

(** One entry of [tasks.map(...)]: the edit form when
    [editingTask?.id === task.id], otherwise the task line, with the edit
    and complete buttons only when [!task.completed]. *)
Inductive TaskRow :=
| EditRow (task : Task.t) (text : jsstring) (saveDisabled : bool)
| DisplayRow (task : Task.t) (actions : bool) (completeDisabled : bool).

Inductive TaskPanel :=
| PanelLoading
| PanelEmpty
| PanelRows (rows : list TaskRow).

Definition renderTaskRow (st : Store WalletClient) (task : Task.t)
  : TaskRow :=
  match editingTask st with
  | Some (id, text) =>
      if id =? Task.id task
      then EditRow task text (loading st)
      else DisplayRow task (negb (Task.completed task)) (loading st)
  | None => DisplayRow task (negb (Task.completed task)) (loading st)
  end.

(** [loading && tasks.length === 0 ? ... : tasks.length === 0 ? ... :
    tasks.map(...)]. *)
Definition renderTasks (st : Store WalletClient) : TaskPanel :=
  if loading st && Nat.eqb (List.length (tasks st)) 0 then PanelLoading
  else if Nat.eqb (List.length (tasks st)) 0 then PanelEmpty
  else PanelRows (List.map (renderTaskRow st) (tasks st)).

Definition rowTask (r : TaskRow) : Task.t :=
  match r with
  | EditRow task _ _ => task
  | DisplayRow task _ _ => task
  end.

(** The row shows the edit and complete buttons. *)
Definition rowOffersActions (r : TaskRow) : bool :=
  match r with
  | EditRow _ _ _ => false
  | DisplayRow _ actions _ => actions
  end.

(** [disabled={loading || !newTaskDescription.trim()}]. *)
Definition createButtonDisabled (st : Store WalletClient) : bool :=
  loading st || negb (JsString.truthy (JsString.trim (newTaskDescription st))).

End Wallet.

(** ** Vocabulary of the further properties *)

(** The task list is non-decreasing in id. *)
Definition idAscending (l : list Task.t) : Prop :=
  StronglySorted (fun a b => Task.id a <= Task.id b) l.

(** Both lists of the store are in presentation order. *)
Definition sortedStore (WalletClient : Type) (st : Store WalletClient)
  : Prop :=
  idAscending (tasks st) /\ heightDescending (events st).

Section WriteTraces.

Variables World Request WalletClient : Type.
Variable client : Client World Request WalletClient.

(** The call sequences of one write handler run from ledger [w]: each call
    is made only after the one before it succeeded. *)
Inductive WriteTrace (w : World) : list (Call Request) -> Prop :=
| TraceRejected : WriteTrace w []
| TraceReverted p e :
    simulateContract client w p = Throw e ->
    WriteTrace w [CallSimulateContract p]
| TraceNotSubmitted wallet p request e w1 :
    simulateContract client w p = Ok request ->
    writeContract client wallet w request = (Throw e, w1) ->
    WriteTrace w [CallSimulateContract p; CallWriteContract request]
| TraceNotConfirmed wallet p request hash e w1 w2 :
    simulateContract client w p = Ok request ->
    writeContract client wallet w request = (Ok hash, w1) ->
    waitForTransactionReceipt client w1 hash = (Throw e, w2) ->
    WriteTrace w [CallSimulateContract p; CallWriteContract request;
                  CallWaitForTransactionReceipt hash]
| TraceReloaded wallet p request hash u w1 w2 ids :
    simulateContract client w p = Ok request ->
    writeContract client wallet w request = (Ok hash, w1) ->
    waitForTransactionReceipt client w1 hash = (Ok u, w2) ->
    WriteTrace w ([CallSimulateContract p; CallWriteContract request;
                   CallWaitForTransactionReceipt hash; CallGetLogs]
                  ++ List.map (@CallReadContract Request) ids).

End WriteTraces.

(** The ledger after an accepted write was confirmed. *)
Definition confirmedWorld (World Request WalletClient : Type)
  (client : Client World Request WalletClient) (w : World)
  (wallet : WalletClient) (p : SimulateParams) : option World :=
  match simulateContract client w p with
  | Throw _ => None
  | Ok request =>
      match writeContract client wallet w request with
      | (Throw _, _) => None
      | (Ok hash, w1) =>
          match waitForTransactionReceipt client w1 hash with
          | (Throw _, _) => None
          | (Ok _, w2) => Some w2
          end
      end
  end.

(** Fixtures for the wallet examples. *)
Module DemoWallet.

Definition metaMask : Provider :=
  mkProvider true
    (RpcOk [JsString.lit "0xaa"])
    (RpcOk [JsString.lit "0xaa"; JsString.lit "0xab"])
    (fun _ => RpcOk tt)
    (fun _ => RpcOk tt).

(** A wallet that does not know the chain and refuses to add it. *)
Definition stubborn : Provider :=
  mkProvider false
    (RpcError None (JsString.lit "locked"))
    (RpcOk [JsString.lit "0xbb"])
    (fun _ => RpcError (Some 4902) (JsString.lit "Unrecognized chain ID"))
    (fun _ => RpcError (Some 4001) (JsString.lit "User rejected the request.")).

(** A wallet where the user declines the chain switch. *)
Definition declinesSwitch : Provider :=
  mkProvider false
    (RpcOk [])
    (RpcOk [JsString.lit "0xcc"])
    (fun _ => RpcError (Some 4001) (JsString.lit "User rejected the request."))
    (fun _ => RpcOk tt).

Definition several : Ethereum :=
  mkEthereum stubborn (Some [declinesSwitch; metaMask; stubborn]).

Definition only (p : Provider) : Ethereum := mkEthereum p None.

(** The wallet client remembers the provider it was created over. *)
Definition disconnected : Store Provider :=
  mkStore [] [] [] [] None false [] None (JsString.lit "0").

Definition staleError : Store Provider :=
  mkStore [] [] [] [] None false (JsString.lit "old") None (JsString.lit "0").

End DemoWallet.

(** * Properties *)

(** ** [trim] *)

Module JsStringFacts.
Import JsString.

Lemma trimStart_split (s : t) :
  exists p, s = p ++ trimStart s /\ whitespaceOnly p.
Proof.
  induction s as [|c s IH]; simpl.
  - exists []. split; [reflexivity | constructor].
  - destruct (isTrimmable c) eqn:E.
    + destruct IH as [p [Hs Hp]]. exists (c :: p). split.
      * simpl. now rewrite <- Hs.
      * now constructor.
    + exists []. split; [reflexivity | constructor].
Qed.

Lemma trimStart_head (s : t) c r :
  trimStart s = c :: r -> isTrimmable c = false.
Proof.
  induction s as [|d s IH]; simpl; [discriminate|].
  destruct (isTrimmable d) eqn:E; [exact IH|].
  intros H. injection H as -> _. exact E.
Qed.

Lemma trimStart_nil (s : t) : trimStart s = [] <-> whitespaceOnly s.
Proof.
  unfold whitespaceOnly. induction s as [|c s IH]; simpl.
  - split; [constructor | reflexivity].
  - destruct (isTrimmable c) eqn:E.
    + rewrite IH. split; intros H.
      * now constructor.
      * now inversion H.
    + split; [discriminate|]. intros H. inversion H; congruence.
Qed.

Lemma whitespaceOnly_rev (s : t) : whitespaceOnly (rev s) <-> whitespaceOnly s.
Proof.
  unfold whitespaceOnly. rewrite !Forall_forall.
  split; intros H c Hc; apply H; [now apply in_rev in Hc | now apply in_rev].
Qed.

Lemma trimEnd_split (s : t) :
  exists q, s = trimEnd s ++ q /\ whitespaceOnly q.
Proof.
  unfold trimEnd. destruct (trimStart_split (rev s)) as [p [Hs Hp]].
  exists (rev p). split.
  - rewrite <- rev_app_distr, <- Hs. symmetry. apply rev_involutive.
  - now apply whitespaceOnly_rev.
Qed.

Lemma trimEnd_last (s : t) r c :
  trimEnd s = r ++ [c] -> isTrimmable c = false.
Proof.
  unfold trimEnd. intros H.
  apply (f_equal (@rev N)) in H.
  rewrite rev_involutive, rev_app_distr in H. simpl in H.
  exact (trimStart_head _ H).
Qed.

Lemma trimEnd_nil (s : t) : trimEnd s = [] <-> whitespaceOnly s.
Proof.
  unfold trimEnd. rewrite <- whitespaceOnly_rev, <- trimStart_nil.
  split; intros H.
  - apply (f_equal (@rev N)) in H. now rewrite rev_involutive in H.
  - now rewrite H.
Qed.

(** The trimmed string does not start with whitespace. *)
Lemma trim_head (s : t) c r : trim s = c :: r -> isTrimmable c = false.
Proof.
  unfold trim. intros H.
  destruct (trimEnd_split (trimStart s)) as [q [Hs _]].
  rewrite H in Hs. simpl in Hs. exact (trimStart_head _ Hs).
Qed.

(** The trimmed string does not end with whitespace. *)
Lemma trim_last (s : t) r c : trim s = r ++ [c] -> isTrimmable c = false.
Proof. unfold trim. apply trimEnd_last. Qed.

(** [trim] yields the empty string exactly on whitespace-only input. *)
Lemma trim_nil (s : t) : trim s = [] <-> whitespaceOnly s.
Proof.
  unfold trim. rewrite trimEnd_nil. split; intros H.
  - apply trimStart_nil. destruct (trimStart s) as [|c r] eqn:E; [reflexivity|].
    apply trimStart_head in E. inversion H; congruence.
  - apply trimStart_nil in H. rewrite H. constructor.
Qed.

Lemma truthy_trim_false (s : t) :
  truthy (trim s) = false <-> whitespaceOnly s.
Proof.
  rewrite <- trim_nil. destruct (trim s); simpl; split; congruence.
Qed.

(** [trim] removes only whitespace: the input is the trimmed string
    between two whitespace-only strings. *)
Lemma trim_split (s : t) :
  exists p q, s = p ++ trim s ++ q /\ whitespaceOnly p /\ whitespaceOnly q.
Proof.
  destruct (trimStart_split s) as [p [Hs Hp]].
  destruct (trimEnd_split (trimStart s)) as [q [Ht Hq]].
  exists p, q. unfold trim. now rewrite <- Ht.
Qed.

End JsStringFacts.

(** ** [sort] is a stable sort *)

Section SortFacts.

Variable A : Type.
Variable comparefn : A -> A -> Z.

(** The comparator orders by a key. *)
Variable key : A -> Z.
Hypothesis comparefn_key : forall a b, comparefn a b <= 0 <-> key a <= key b.

Local Abbreviation keyLe := (keyLe key).
Local Abbreviation hasKey := (hasKey key).

Lemma hasKey_refl a : hasKey (key a) a = true.
Proof. apply Z.eqb_refl. Qed.

Lemma sort_insert_perm x l : Permutation (x :: l) (sort_insert comparefn x l).
Proof.
  induction l as [|y l IH]; simpl; [reflexivity|].
  destruct (comparefn x y <=? 0); [reflexivity|].
  rewrite perm_swap. now constructor.
Qed.

Lemma sort_perm l : Permutation l (sort comparefn l).
Proof.
  induction l as [|x l IH]; simpl; [constructor|].
  rewrite <- sort_insert_perm. now constructor.
Qed.

Lemma sort_insert_sorted x l :
  StronglySorted keyLe l -> StronglySorted keyLe (sort_insert comparefn x l).
Proof.
  induction 1 as [|y l Hl IH Hy]; simpl.
  - repeat constructor.
  - destruct (Z.leb_spec (comparefn x y) 0) as [Hc|Hc].
    + apply comparefn_key in Hc. constructor.
      * now constructor.
      * constructor; [exact Hc|].
        rewrite Forall_forall in *. intros z Hz.
        specialize (Hy z Hz). unfold keyLe in *. lia.
    + constructor; [exact IH|].
      assert (Hxy : key y <= key x).
      { destruct (Z.le_gt_cases (key x) (key y)) as [H|H]; [|lia].
        apply comparefn_key in H. lia. }
      rewrite Forall_forall in *. intros z Hz.
      apply (Permutation_in _ (Permutation_sym (sort_insert_perm x l))) in Hz.
      destruct Hz as [<-|Hz]; [exact Hxy | now apply Hy].
Qed.

Lemma sort_sorted l : StronglySorted keyLe (sort comparefn l).
Proof.
  induction l as [|x l IH]; simpl; [constructor|].
  now apply sort_insert_sorted.
Qed.

Lemma sort_insert_stable k x l :
  StronglySorted keyLe l ->
  filter (hasKey k) (sort_insert comparefn x l) = filter (hasKey k) (x :: l).
Proof.
  induction 1 as [|y l Hl IH Hy]; [reflexivity|].
  cbn [sort_insert].
  destruct (Z.leb_spec (comparefn x y) 0) as [Hc|Hc]; [reflexivity|].
  assert (Hxy : key y < key x).
  { destruct (Z.le_gt_cases (key x) (key y)) as [H|H]; [|lia].
    apply comparefn_key in H. lia. }
  cbn [filter] in *. rewrite IH. unfold hasKey.
  destruct (Z.eqb_spec (key y) k) as [Ey|Ey];
    destruct (Z.eqb_spec (key x) k) as [Ex|Ex]; try reflexivity.
  lia.
Qed.

(** Stability: the entries of one key keep their input order. *)
Lemma sort_stable k l :
  filter (hasKey k) (sort comparefn l) = filter (hasKey k) l.
Proof.
  induction l as [|x l IH]; [reflexivity|].
  cbn [sort]. rewrite sort_insert_stable by apply sort_sorted.
  cbn [filter]. now rewrite IH.
Qed.

(** Two key-sorted lists with the same entries, in the same order, under
    every key are equal. *)
Lemma sorted_stable_unique l1 : forall l2,
  StronglySorted keyLe l1 -> StronglySorted keyLe l2 ->
  (forall k, filter (hasKey k) l1 = filter (hasKey k) l2) ->
  l1 = l2.
Proof.
  assert (Hhead : forall a l b l',
    StronglySorted keyLe (a :: l) -> StronglySorted keyLe (b :: l') ->
    (forall k, filter (hasKey k) (a :: l) = filter (hasKey k) (b :: l')) ->
    key b <= key a).
  { intros a l b l' Ha Hb H.
    specialize (H (key a)). cbn [filter] in H.
    rewrite hasKey_refl in H.
    assert (Hin : In a (filter (hasKey (key a)) (b :: l'))).
    { cbn [filter]. rewrite <- H. now left. }
    apply filter_In in Hin. destruct Hin as [[<-|Hin] _]; [unfold keyLe; lia|].
    apply StronglySorted_inv in Hb. destruct Hb as [_ Hb].
    rewrite Forall_forall in Hb. exact (Hb a Hin). }
  induction l1 as [|a l1 IH]; intros [|b l2] H1 H2 H.
  - reflexivity.
  - specialize (H (key b)). cbn [filter] in H.
    rewrite hasKey_refl in H. discriminate.
  - specialize (H (key a)). cbn [filter] in H.
    rewrite hasKey_refl in H. discriminate.
  - assert (Hk : key a = key b).
    { apply Z.le_antisymm.
      - apply (Hhead b l2 a l1); auto.
      - apply (Hhead a l1 b l2); auto. }
    assert (Hab : a = b).
    { specialize (H (key a)). cbn [filter] in H.
      rewrite hasKey_refl in H. rewrite Hk, hasKey_refl in H. congruence. }
    subst b. f_equal.
    apply IH.
    + now apply StronglySorted_inv in H1.
    + now apply StronglySorted_inv in H2.
    + intros k. specialize (H k). cbn [filter] in H.
      destruct (hasKey k a); congruence.
Qed.

(** The result of [sort] is the only stable sorted arrangement of its
    input, whatever algorithm computes it. *)
Lemma sort_unique l l' :
  StronglySorted keyLe l' ->
  (forall k, filter (hasKey k) l' = filter (hasKey k) l) ->
  l' = sort comparefn l.
Proof.
  intros Hs Hf. apply sorted_stable_unique; auto using sort_sorted.
  intros k. now rewrite sort_stable.
Qed.

Lemma sort_length l : length (sort comparefn l) = length l.
Proof. symmetry. apply Permutation_length, sort_perm. Qed.

Lemma sort_In l x : In x (sort comparefn l) <-> In x l.
Proof.
  split; apply Permutation_in; [symmetry|]; apply sort_perm.
Qed.

End SortFacts.

(** ** The set of created ids *)

Module BigintSetFacts.
Import BigintSet.

Lemma has_In x s : has x s = true <-> In x s.
Proof.
  induction s as [|y s IH]; simpl; [split; [discriminate | tauto]|].
  rewrite orb_true_iff, IH, Z.eqb_eq. split; intros [H|H]; auto.
Qed.

Lemma add_In x s y : In y (add x s) <-> y = x \/ In y s.
Proof.
  unfold add. destruct (has x s) eqn:E.
  - apply has_In in E. split; [auto | intros [->|H]; auto].
  - rewrite in_app_iff. simpl. split; intros [H|H]; auto.
    + destruct H as [H|[]]; auto.
Qed.

Lemma add_NoDup x s : NoDup s -> NoDup (add x s).
Proof.
  unfold add. intros H. destruct (has x s) eqn:E; [exact H|].
  assert (Hx : ~ In x s) by (rewrite <- has_In; congruence).
  clear E. induction H as [|y s Hy Hs IH]; simpl.
  - constructor; [intros [] | constructor].
  - constructor.
    + rewrite in_app_iff. simpl. intros [H|[H|[]]]; [tauto|].
      subst. apply Hx. now left.
    + apply IH. intros H. apply Hx. now right.
Qed.

End BigintSetFacts.

Section CollectFacts.

Local Abbreviation step := collectStep.

Lemma step_eq taskIds log :
  step taskIds log =
  if isCreated log
  then BigintSet.add (Log.id (Log.args log)) taskIds
  else taskIds.
Proof. reflexivity. Qed.

Lemma isCreated_true log :
  isCreated log = true <-> Log.eventName log = TaskCreated.
Proof.
  unfold isCreated. destruct (Log.eventName log); simpl;
    split; congruence.
Qed.

Lemma createdIn_cons log logs i :
  createdIn (log :: logs) i <->
  (isCreated log = true /\ Log.id (Log.args log) = i) \/ createdIn logs i.
Proof.
  unfold createdIn. rewrite isCreated_true. split.
  - intros [l [[<-|Hin] [Hn Hi]]]; [now left|].
    right. now exists l.
  - intros [[Hn Hi]|[l [Hin [Hn Hi]]]].
    + exists log. simpl. auto.
    + exists l. simpl. auto.
Qed.

Lemma fold_step_NoDup logs : forall acc,
  NoDup acc -> NoDup (fold_left step logs acc).
Proof.
  induction logs as [|log logs IH]; intros acc H; simpl; [exact H|].
  apply IH. rewrite step_eq. destruct (isCreated log); [|exact H].
  now apply BigintSetFacts.add_NoDup.
Qed.

Lemma fold_step_In logs : forall acc i,
  In i (fold_left step logs acc) <-> In i acc \/ createdIn logs i.
Proof.
  induction logs as [|log logs IH]; intros acc i; simpl.
  - split; [auto | intros [H|[l [[] _]]]; exact H].
  - rewrite IH, createdIn_cons, step_eq.
    destruct (isCreated log).
    + rewrite BigintSetFacts.add_In. split.
      * intros [[->|H]|H]; auto.
      * intros [H|[[_ H]|H]]; auto.
    + split.
      * intros [H|H]; auto.
      * intros [H|[[H _]|H]]; auto. discriminate.
Qed.

Lemma fold_step_filter logs : forall acc,
  fold_left step (filter isCreated logs) acc = fold_left step logs acc.
Proof.
  induction logs as [|log logs IH]; intros acc; simpl; [reflexivity|].
  destruct (isCreated log) eqn:E; simpl; rewrite IH, step_eq;
    now rewrite E.
Qed.

(** The collected ids are pairwise distinct. *)
Lemma collectTaskIds_NoDup logs : NoDup (collectTaskIds logs).
Proof. apply (fold_step_NoDup logs). constructor. Qed.

(** They are the ids of the [TaskCreated] records, and no others. *)
Lemma collectTaskIds_In logs i :
  In i (collectTaskIds logs) <-> createdIn logs i.
Proof.
  change (In i (fold_left step logs []) <-> createdIn logs i).
  rewrite fold_step_In. simpl. tauto.
Qed.

(** Only the [TaskCreated] records matter. *)
Lemma collectTaskIds_filter logs :
  collectTaskIds (filter isCreated logs) = collectTaskIds logs.
Proof. apply (fold_step_filter logs). Qed.

End CollectFacts.

Lemma filterNonNull_In (A : Type) (l : list (option A)) a :
  In a (filterNonNull l) <-> In (Some a) l.
Proof.
  induction l as [|[b|] l IH]; simpl.
  - tauto.
  - rewrite IH. split; intros [H|H]; auto; left; congruence.
  - rewrite IH. split; [auto | intros [H|H]; [discriminate | auto]].
Qed.

Lemma filterNonNull_all_Some (A B : Type) (f : A -> option B) (g : A -> B) l :
  (forall x, In x l -> f x = Some (g x)) ->
  filterNonNull (List.map f l) = List.map g l.
Proof.
  induction l as [|x l IH]; intros H; simpl; [reflexivity|].
  rewrite (H x) by now left. f_equal. apply IH. intros y Hy. apply H. now right.
Qed.

Lemma filterNonNull_length_all (A B : Type) (f : A -> option B) l :
  (forall x, In x l -> f x <> None) ->
  List.length (filterNonNull (List.map f l)) = List.length l.
Proof.
  induction l as [|x l IH]; intros H; simpl; [reflexivity|].
  destruct (f x) eqn:E.
  - simpl. f_equal. apply IH. intros y Hy. apply H. now right.
  - exfalso. apply (H x); [now left | exact E].
Qed.

(** One failed read among ids without repetition removes one entry. *)
Lemma filterNonNull_one_None (A B : Type) (f : A -> option B) l j :
  NoDup l -> In j l -> f j = None ->
  (forall x, In x l -> x <> j -> f x <> None) ->
  S (List.length (filterNonNull (List.map f l))) = List.length l.
Proof.
  induction 1 as [|x l Hx Hl IH]; simpl; [tauto|].
  intros [->|Hj] Hf Hothers.
  - rewrite Hf. f_equal. apply filterNonNull_length_all.
    intros y Hy. apply Hothers; [now right|]. intros ->. contradiction.
  - destruct (f x) eqn:E.
    + simpl. f_equal. apply IH; auto.
    + exfalso. apply (Hothers x); [now left | | exact E].
      intros ->. contradiction.
Qed.

(** ** The handlers, equationally *)

Section HandlerFacts.

Variables World Request WalletClient : Type.
Variable client : Client World Request WalletClient.

Local Abbreviation Sys := (Sys World Request WalletClient).
Local Abbreviation Store := (Store WalletClient).

Lemma promiseAll_readTask ids : forall s : Sys,
  promiseAll (readTask client) ids s =
  (Ok (List.map (pointRead client (world s)) ids),
   mkSys (store s) (world s)
         (trace s ++ List.map (@CallReadContract Request) ids)).
Proof.
  induction ids as [|id ids IH]; intros s; simpl.
  - unfold ret. rewrite app_nil_r. now destruct s.
  - unfold bind at 1.
    unfold readTask at 1, try_catch, bind, call_readContract, ret, pointRead.
    destruct (readContract client (world s) id) eqn:E;
      unfold bind; rewrite IH; simpl; unfold ret;
      rewrite <- app_assoc; reflexivity.
Qed.

(** A pass whose log query succeeds. *)
Lemma loadTasksAndEvents_ok (s : Sys) logs :
  getLogs client (world s) = Ok logs ->
  loadTasksAndEvents client s =
  (Ok tt,
   mkSys (with_loading false
            (with_tasks (reconstructedTasks client (world s) logs)
               (with_events (eventFeed logs)
                  (with_loading true (store s)))))
         (world s)
         (trace s ++ CallGetLogs
            :: List.map (@CallReadContract Request) (collectTaskIds logs))).
Proof.
  intros H.
  unfold loadTasksAndEvents, try_catch_finally, bind, setLoading, setEvents,
    setTasks, modify, call_getLogs, record. simpl.
  rewrite H. rewrite promiseAll_readTask. simpl.
  rewrite <- app_assoc. reflexivity.
Qed.

(** A pass whose log query fails. *)
Lemma loadTasksAndEvents_fail (s : Sys) e :
  getLogs client (world s) = Throw e ->
  loadTasksAndEvents client s =
  (Ok tt,
   mkSys (with_loading false
            (with_error (JsString.lit "Failed to load tasks: " ++ e)
               (with_loading true (store s))))
         (world s)
         (trace s ++ [CallGetLogs])).
Proof.
  intros H.
  unfold loadTasksAndEvents, try_catch_finally, bind, setLoading, setError,
    modify, call_getLogs, record. simpl.
  rewrite H. reflexivity.
Qed.

(** The read path never throws, never touches the ledger, and makes only
    read calls. *)
Lemma loadTasksAndEvents_total (s : Sys) :
  exists st ids,
    loadTasksAndEvents client s =
    (Ok tt, mkSys st (world s)
              (trace s ++ CallGetLogs
                 :: List.map (@CallReadContract Request) ids)).
Proof.
  destruct (getLogs client (world s)) as [logs|e] eqn:E.
  - rewrite (loadTasksAndEvents_ok _ E). eauto.
  - rewrite (loadTasksAndEvents_fail _ E). now eexists _, [].
Qed.

Lemma with_error_twice (st : Store) m :
  with_loading false (with_error m (with_error [] (with_loading true st)))
  = with_loading false (with_error m st).
Proof. reflexivity. Qed.

(** An intent the entry guard turns away does nothing at all. *)
Lemma dispatch_rejected i (s : Sys) :
  acceptedCall (store s) i = None -> dispatch client i s = (Ok tt, s).
Proof.
  unfold acceptedCall, dispatch. destruct i as [| |id]; simpl.
  - unfold createTask.
    destruct (walletClient (store s)).
    + destruct (JsString.trim (newTaskDescription (store s)));
        [reflexivity | discriminate].
    + now destruct (JsString.truthy _).
  - unfold updateTask.
    destruct (walletClient (store s)).
    + destruct (editingTask (store s)) as [[id d]|]; [|reflexivity].
      destruct (JsString.trim d); [reflexivity | discriminate].
    + now destruct (editingTask (store s)) as [[id d]|].
  - unfold completeTask.
    destruct (walletClient (store s)); [discriminate | reflexivity].
Qed.

(** An accepted intent, stage by stage. *)
Lemma dispatch_accepted i (s : Sys) wallet p :
  acceptedCall (store s) i = Some (wallet, p) ->
  let failed e w calls :=
    (Ok tt,
     mkSys (with_loading false
              (with_error (failurePrefix i ++ e) (store s)))
           w (trace s ++ calls)) in
  dispatch client i s =
  match simulateContract client (world s) p with
  | Throw e => failed e (world s) [CallSimulateContract p]
  | Ok request =>
      match writeContract client wallet (world s) request with
      | (Throw e, w1) =>
          failed e w1 [CallSimulateContract p; CallWriteContract request]
      | (Ok hash, w1) =>
          match waitForTransactionReceipt client w1 hash with
          | (Throw e, w2) =>
              failed e w2 [CallSimulateContract p;
                           CallWriteContract request;
                           CallWaitForTransactionReceipt hash]
          | (Ok _, w2) =>
              let s' :=
                snd (loadTasksAndEvents client
                       (mkSys (epilogue i
                                 (with_error []
                                    (with_loading true (store s))))
                              w2
                              (trace s ++
                                 [CallSimulateContract p;
                                  CallWriteContract request;
                                  CallWaitForTransactionReceipt hash]))) in
              (Ok tt,
               mkSys (with_loading false (store s')) (world s') (trace s'))
          end
      end
  end.
Proof.
  intros H failed. subst failed.
  assert (Hflow : forall (f : Store -> Store) body,
    body = (fun ep : M World Request WalletClient unit =>
      try_catch_finally
        (bind (setLoading true) (fun _ =>
         bind (setError []) (fun _ =>
         bind (call_simulateContract client p) (fun request =>
         bind (call_writeContract client wallet request) (fun hash =>
         bind (call_waitForTransactionReceipt client hash) (fun _ =>
         ep))))))
        (fun message => setError (failurePrefix i ++ message))
        (setLoading false)) ->
    forall ep,
    (forall x : Sys, ep x =
       loadTasksAndEvents client
         (mkSys (f (store x)) (world x) (trace x))) ->
    body ep s =
    match simulateContract client (world s) p with
    | Throw e =>
        (Ok tt, mkSys (with_loading false
                         (with_error (failurePrefix i ++ e) (store s)))
                      (world s) (trace s ++ [CallSimulateContract p]))
    | Ok request =>
        match writeContract client wallet (world s) request with
        | (Throw e, w1) =>
            (Ok tt, mkSys (with_loading false
                             (with_error (failurePrefix i ++ e) (store s)))
                          w1 (trace s ++ [CallSimulateContract p;
                                          CallWriteContract request]))
        | (Ok hash, w1) =>
            match waitForTransactionReceipt client w1 hash with
            | (Throw e, w2) =>
                (Ok tt, mkSys (with_loading false
                                 (with_error (failurePrefix i ++ e)
                                    (store s)))
                              w2 (trace s ++
                                    [CallSimulateContract p;
                                     CallWriteContract request;
                                     CallWaitForTransactionReceipt hash]))
            | (Ok _, w2) =>
                let s' :=
                  snd (loadTasksAndEvents client
                         (mkSys (f (with_error []
                                      (with_loading true (store s))))
                                w2
                                (trace s ++
                                   [CallSimulateContract p;
                                    CallWriteContract request;
                                    CallWaitForTransactionReceipt hash]))) in
                (Ok tt, mkSys (with_loading false (store s')) (world s')
                              (trace s'))
            end
        end
    end).
  { intros f body -> ep Hep.
    unfold try_catch_finally, bind, setLoading, setError, modify,
      call_simulateContract, call_writeContract,
      call_waitForTransactionReceipt, record. simpl.
    destruct (simulateContract client (world s) p) as [request|e];
      [|reflexivity].
    destruct (writeContract client wallet (world s) request)
      as [[hash|e] w1]; simpl; rewrite <- ?app_assoc; simpl; [|reflexivity].
    destruct (waitForTransactionReceipt client w1 hash)
      as [[[]|e] w2]; simpl; rewrite <- ?app_assoc; simpl; [|reflexivity].
    rewrite Hep. simpl.
    match goal with
    | |- context [loadTasksAndEvents client ?x] =>
        destruct (loadTasksAndEvents_total x) as [st [ids Hl]];
        rewrite Hl
    end.
    reflexivity. }
  unfold acceptedCall in H.
  destruct (walletClient (store s)) as [wallet'|] eqn:Hw; [|discriminate].
  destruct i as [| |id]; simpl dispatch.
  - destruct (JsString.trim (newTaskDescription (store s))) as [|c r] eqn:Ht;
      [discriminate|].
    injection H as <- <-.
    unfold createTask. rewrite Hw, Ht. simpl JsString.truthy. cbv iota.
    apply (Hflow (with_newTaskDescription []) _ eq_refl).
    intros x. reflexivity.
  - destruct (editingTask (store s)) as [[id d]|] eqn:He; [|discriminate].
    destruct (JsString.trim d) as [|c r] eqn:Ht; [discriminate|].
    injection H as <- <-.
    unfold updateTask. rewrite Hw, He, Ht. simpl JsString.truthy. cbv iota.
    apply (Hflow (with_editingTask None) _ eq_refl).
    intros x. reflexivity.
  - injection H as <- <-.
    unfold completeTask. rewrite Hw.
    apply (Hflow (fun st => st) _ eq_refl).
    intros x. now destruct x.
Qed.

End HandlerFacts.

(** ** The event feed *)

Lemma StronglySorted_weaken (A : Type) (R R' : A -> A -> Prop) l :
  (forall a b, R a b -> R' a b) -> StronglySorted R l -> StronglySorted R' l.
Proof.
  intros HR. induction 1 as [|a l Hl IH Ha]; constructor; [exact IH|].
  eapply Forall_impl; [|exact Ha]. intros b. apply HR.
Qed.

Lemma compareEvents_key a b :
  compareEvents a b <= 0 <-> - Event.blockNumber a <= - Event.blockNumber b.
Proof. unfold compareEvents, Number. lia. Qed.

Lemma compareTasks_key a b : compareTasks a b <= 0 <-> Task.id a <= Task.id b.
Proof. unfold compareTasks, Number. lia. Qed.

Lemma atHeight_hasKey h l :
  atHeight h l = filter (hasKey (fun e => - Event.blockNumber e) (- h)) l.
Proof.
  unfold atHeight, hasKey. apply filter_ext. intros e.
  destruct (Z.eqb_spec (Event.blockNumber e) h);
    destruct (Z.eqb_spec (- Event.blockNumber e) (- h)); auto; lia.
Qed.

Lemma eventFeed_heightDescending logs : heightDescending (eventFeed logs).
Proof.
  unfold heightDescending, eventFeed.
  eapply StronglySorted_weaken;
    [|apply (@sort_sorted _ _ _ compareEvents_key)].
  unfold keyLe. intros a b. lia.
Qed.

Lemma eventFeed_stable logs h :
  atHeight h (eventFeed logs) = atHeight h (processedEvents logs).
Proof.
  rewrite !atHeight_hasKey. apply (@sort_stable _ _ _ compareEvents_key).
Qed.

(** The feed is the only arrangement of the normalized records that is
    height-descending and keeps the order within each block. *)
Lemma eventFeed_unique logs l :
  heightDescending l ->
  (forall h, atHeight h l = atHeight h (processedEvents logs)) ->
  l = eventFeed logs.
Proof.
  intros Hs Hf. apply (@sort_unique _ _ _ compareEvents_key).
  - eapply StronglySorted_weaken; [|exact Hs].
    unfold keyLe. intros a b. lia.
  - intros k. specialize (Hf (- k)). rewrite !atHeight_hasKey in Hf.
    now rewrite Z.opp_involutive in Hf.
Qed.

Lemma processEvent_no_description log :
  Event.description (processEvent log) = None.
Proof. reflexivity. Qed.

Section Claims.

Variables World Request WalletClient : Type.
Variable client : Client World Request WalletClient.

Local Abbreviation Sys := (Sys World Request WalletClient).
Local Abbreviation Store := (Store WalletClient).

Lemma pointRead_Some w i t :
  pointRead client w i = Some t <-> readContract client w i = Ok t.
Proof.
  unfold pointRead. destruct (readContract client w i);
    split; congruence.
Qed.

Lemma pointRead_None w i :
  pointRead client w i = None <-> exists e, readContract client w i = Throw e.
Proof.
  unfold pointRead. destruct (readContract client w i); split;
    try congruence; eauto.
  intros [e H]. discriminate.
Qed.

Lemma faithful_reads_ids w ids :
  (forall i, In i ids ->
     exists t, readContract client w i = Ok t /\ Task.id t = i) ->
  List.map Task.id (filterNonNull (List.map (pointRead client w) ids)) = ids.
Proof.
  induction ids as [|i ids IH]; intros H; simpl; [reflexivity|].
  destruct (H i) as [t [Ht Hi]]; [now left|].
  apply pointRead_Some in Ht. rewrite Ht. simpl. f_equal; [exact Hi|].
  apply IH. intros k Hk. apply H. now right.
Qed.

Lemma reconstructedTasks_In w logs t :
  In t (reconstructedTasks client w logs) <->
  exists i, createdIn logs i /\ readContract client w i = Ok t.
Proof.
  unfold reconstructedTasks.
  rewrite sort_In, filterNonNull_In, in_map_iff.
  split; intros [i H]; exists i.
  - now rewrite <- collectTaskIds_In, <- pointRead_Some.
  - now rewrite collectTaskIds_In, pointRead_Some.
Qed.

(** C3.  Whatever log records the fetch returns, the event feed that the
    read path stores is non-increasing in block height over its whole
    length, the entries of one height stand in their input order, and the
    feed is a rearrangement of the normalized records. *)
Theorem event_feed_sorted_descending_stable (s : Sys) logs :
  getLogs client (world s) = Ok logs ->
  let feed := events (store (snd (loadTasksAndEvents client s))) in
  heightDescending feed
  /\ (forall h, atHeight h feed = atHeight h (List.map processEvent logs))
  /\ Permutation (List.map processEvent logs) feed.
Proof.
  intros H. rewrite (loadTasksAndEvents_ok _ _ H). simpl.
  split; [apply eventFeed_heightDescending|].
  split; [intros h; apply eventFeed_stable|].
  apply sort_perm.
Qed.

(** C1, amended.  When the log fetch returns [logs] and the point-read of
    every created id succeeds with a record whose own id is the id that was
    read, the reconstructed tasks carry exactly the ids of the
    [TaskCreated] records, each once; any other log sequence with the same
    [TaskCreated] records, whatever its [TaskUpdated] and [TaskCompleted]
    records, gives the same tasks. *)
Theorem reconstructed_ids_exactly_created (s : Sys) logs :
  getLogs client (world s) = Ok logs ->
  (forall i, createdIn logs i ->
     exists t, readContract client (world s) i = Ok t /\ Task.id t = i) ->
  let result := tasks (store (snd (loadTasksAndEvents client s))) in
  NoDup (List.map Task.id result)
  /\ (forall i, In i (List.map Task.id result) <-> createdIn logs i)
  /\ (forall (s2 : Sys) logs2,
        getLogs client (world s2) = Ok logs2 ->
        filter isCreated logs2 = filter isCreated logs ->
        (forall i, readContract client (world s2) i
                   = readContract client (world s) i) ->
        tasks (store (snd (loadTasksAndEvents client s2))) = result).
Proof.
  intros H Hread. rewrite (loadTasksAndEvents_ok _ _ H). simpl.
  assert (Hp : Permutation (collectTaskIds logs)
                 (List.map Task.id
                    (reconstructedTasks client (world s) logs))).
  { unfold reconstructedTasks.
    rewrite <- (sort_perm compareTasks).
    rewrite faithful_reads_ids; [reflexivity|].
    intros i Hi. apply Hread. now apply collectTaskIds_In. }
  split; [|split].
  - eapply Permutation_NoDup; [exact Hp | apply collectTaskIds_NoDup].
  - intros i. rewrite <- collectTaskIds_In. split.
    + apply Permutation_in. now symmetry.
    + now apply Permutation_in.
  - intros s2 logs2 H2 Hc Hr.
    rewrite (loadTasksAndEvents_ok _ _ H2). simpl.
    unfold reconstructedTasks.
    rewrite <- (collectTaskIds_filter logs2), Hc, collectTaskIds_filter.
    do 2 f_equal. apply map_ext. intros i. unfold pointRead.
    now rewrite Hr.
Qed.

(** C2.  When the created ids are the [N] pairwise distinct [ids] and the
    point-read fails for exactly one of them, [j], the read path returns
    normally, surfaces no error, and stores exactly [N - 1] tasks: the
    records read for the other ids, and nothing for [j]. *)
Theorem one_failed_read_omits_one_task (s : Sys) logs ids j e :
  getLogs client (world s) = Ok logs ->
  NoDup ids ->
  (forall i, In i ids <-> createdIn logs i) ->
  In j ids ->
  readContract client (world s) j = Throw e ->
  (forall i, In i ids -> i <> j ->
     exists t, readContract client (world s) i = Ok t) ->
  let outcome := loadTasksAndEvents client s in
  fst outcome = Ok tt
  /\ error (store (snd outcome)) = error (store s)
  /\ List.length (tasks (store (snd outcome))) = (List.length ids - 1)%nat
  /\ (forall t, In t (tasks (store (snd outcome))) <->
        exists i, In i ids /\ i <> j
                  /\ readContract client (world s) i = Ok t).
Proof.
  intros H Hnd Hids Hj Hfail Hothers.
  rewrite (loadTasksAndEvents_ok _ _ H). simpl.
  split; [reflexivity|]. split; [reflexivity|]. split.
  - unfold reconstructedTasks. rewrite sort_length.
    assert (Hp : Permutation (collectTaskIds logs) ids).
    { apply NoDup_Permutation; auto using collectTaskIds_NoDup.
      intros i. now rewrite collectTaskIds_In, Hids. }
    rewrite <- (Permutation_length Hp).
    assert (Hlen : S (List.length
                        (filterNonNull
                           (List.map (pointRead client (world s))
                              (collectTaskIds logs))))
                   = List.length (collectTaskIds logs)).
    { apply filterNonNull_one_None with (j := j).
      - apply collectTaskIds_NoDup.
      - apply collectTaskIds_In, Hids, Hj.
      - apply pointRead_None. eauto.
      - intros i Hi Hij Hnone. apply pointRead_None in Hnone.
        destruct Hnone as [e' He'].
        destruct (Hothers i) as [t Ht]; auto.
        + apply Hids. now apply collectTaskIds_In.
        + congruence. }
    lia.
  - intros t. rewrite reconstructedTasks_In. split.
    + intros [i [Hi Ht]]. exists i. split; [now apply Hids|].
      split; [|exact Ht]. intros ->. congruence.
    + intros [i [Hi [_ Ht]]]. exists i. split; [now apply Hids | exact Ht].
Qed.

(** C8.  A second pass of the read path against a ledger that answers the
    log fetch and every point-read as it did the first time leaves the
    stored tasks and events (indeed the whole store) as the first pass
    left them. *)
Theorem read_path_idempotent (s : Sys) (w2 : World) :
  getLogs client w2 = getLogs client (world s) ->
  (forall i, readContract client w2 i = readContract client (world s) i) ->
  let first := snd (loadTasksAndEvents client s) in
  let second :=
    snd (loadTasksAndEvents client (mkSys (store first) w2 (trace first))) in
  tasks (store second) = tasks (store first)
  /\ events (store second) = events (store first)
  /\ store second = store first.
Proof.
  intros Hlogs Hreads.
  assert (Hrec : forall logs,
    reconstructedTasks client w2 logs
    = reconstructedTasks client (world s) logs).
  { intros logs. unfold reconstructedTasks. do 2 f_equal.
    apply map_ext. intros i. unfold pointRead. now rewrite Hreads. }
  destruct (getLogs client (world s)) as [logs|msg] eqn:E.
  - rewrite (loadTasksAndEvents_ok _ _ E). simpl.
    rewrite (@loadTasksAndEvents_ok _ _ _ client (mkSys _ w2 _) logs Hlogs). simpl.
    rewrite Hrec. auto.
  - rewrite (@loadTasksAndEvents_fail _ _ _ client s msg E). simpl.
    rewrite (@loadTasksAndEvents_fail _ _ _ client (mkSys _ w2 _) msg Hlogs). simpl.
    auto.
Qed.

(** *** The write path *)

(** The calls an accepted intent makes: one dry-run first, then nothing
    but the submission of what that dry-run prepared, the wait, and the
    reads of the reload. *)
Lemma dispatch_trace i (s : Sys) wallet p :
  acceptedCall (store s) i = Some (wallet, p) ->
  exists rest,
    fst (dispatch client i s) = Ok tt
    /\ trace (snd (dispatch client i s))
       = trace s ++ CallSimulateContract p :: rest
    /\ (forall p', ~ In (CallSimulateContract p') rest)
    /\ (forall request, In (CallWriteContract request) rest ->
          simulateContract client (world s) p = Ok request).
Proof.
  intros H. rewrite (dispatch_accepted client _ _ H).
  destruct (simulateContract client (world s) p) as [request|e].
  2:{ exists []. simpl. repeat split; intros ? []. }
  destruct (writeContract client wallet (world s) request)
    as [[hash|e] w1].
  2:{ exists [CallWriteContract request]. simpl. repeat split.
      - intros p' [Hp|[]]. discriminate.
      - intros r [Hr|[]]. congruence. }
  destruct (waitForTransactionReceipt client w1 hash) as [[[]|e] w2].
  2:{ exists [CallWriteContract request; CallWaitForTransactionReceipt hash].
      simpl. repeat split.
      - intros p' [Hp|[Hp|[]]]; discriminate.
      - intros r [Hr|[Hr|[]]]; congruence. }
  match goal with
  | |- context [loadTasksAndEvents client ?x] =>
      destruct (loadTasksAndEvents_total client x) as [st [ids Hl]];
      rewrite Hl
  end.
  exists (CallWriteContract request :: CallWaitForTransactionReceipt hash
          :: CallGetLogs :: List.map (@CallReadContract Request) ids).
  simpl. rewrite <- app_assoc. simpl. repeat split.
  - intros p' [Hp|[Hp|[Hp|Hp]]]; try discriminate.
    apply in_map_iff in Hp. destruct Hp as [k [Hk _]]. discriminate.
  - intros r [Hr|[Hr|[Hr|Hr]]]; try discriminate; [congruence|].
    apply in_map_iff in Hr. destruct Hr as [k [Hk _]]. discriminate.
Qed.

Lemma blank_input_rejected (st : Store) i d :
  intentDescription st i = Some d -> JsString.whitespaceOnly d ->
  acceptedCall st i = None.
Proof.
  intros Hd Hws. apply JsStringFacts.trim_nil in Hws.
  unfold acceptedCall. destruct (walletClient st); [|reflexivity].
  destruct i as [| |id]; simpl in Hd.
  - injection Hd as ->. now rewrite Hws.
  - destruct (editingTask st) as [[id d']|]; [|reflexivity].
    simpl in Hd. injection Hd as ->. now rewrite Hws.
  - discriminate.
Qed.

(** C7.  A create or update whose text is empty or whitespace-only, and
    any write issued without a wallet client, returns at the entry guard:
    the store, the ledger and the call trace are as before, so neither a
    simulation nor a submission is made. *)
Theorem guard_rejects_before_simulating i (s : Sys) :
  (exists d, intentDescription (store s) i = Some d
             /\ JsString.whitespaceOnly d)
  \/ walletClient (store s) = None ->
  dispatch client i s = (Ok tt, s).
Proof.
  intros H. apply dispatch_rejected. destruct H as [[d [Hd Hws]]|H].
  - exact (blank_input_rejected _ _ Hd Hws).
  - unfold acceptedCall. now rewrite H.
Qed.

(** C5.  If among the calls a write intent makes there is a dry-run that
    the ledger reverts with [reason], then that dry-run is the only call
    made (no submission follows), the handler returns normally, the
    ledger is untouched, and the stored error is the handler's failure
    message carrying [reason]. *)
Theorem simulate_failure_never_submits i (s : Sys) p reason newCalls :
  trace (snd (dispatch client i s)) = trace s ++ newCalls ->
  In (CallSimulateContract p) newCalls ->
  simulateContract client (world s) p = Throw reason ->
  fst (dispatch client i s) = Ok tt
  /\ newCalls = [CallSimulateContract p]
  /\ (forall request, ~ In (CallWriteContract request) newCalls)
  /\ error (store (snd (dispatch client i s))) = failurePrefix i ++ reason
  /\ world (snd (dispatch client i s)) = world s.
Proof.
  intros Htrace Hin Hsim.
  destruct (acceptedCall (store s) i) as [[wallet p0]|] eqn:Ha.
  - destruct (dispatch_trace _ _ Ha) as [rest [_ [Ht [Hns _]]]].
    rewrite Ht in Htrace. apply app_inv_head in Htrace. subst newCalls.
    assert (p0 = p) as ->.
    { destruct Hin as [Hp|Hp]; [congruence|]. now apply Hns in Hp. }
    rewrite (dispatch_accepted client _ _ Ha), Hsim in Ht |- *.
    simpl in Ht |- *. apply app_inv_head in Ht.
    injection Ht as <-.
    repeat split. intros request [Hr|[]]. discriminate.
  - rewrite (dispatch_rejected client _ _ Ha) in Htrace. simpl in Htrace.
    rewrite <- (app_nil_r (trace s)) in Htrace at 1.
    apply app_inv_head in Htrace. subst newCalls. destruct Hin.
Qed.

(** C6.  When an accepted write fails at the simulate, the submit or the
    confirmation stage, the handler returns normally and the store is the
    previous one with the failure message recorded and the busy flag
    cleared: tasks and events are the previous snapshot. *)
Theorem failed_write_keeps_snapshot i (s : Sys) wallet p e w' :
  acceptedCall (store s) i = Some (wallet, p) ->
  WriteFails client (world s) wallet p e w' ->
  let outcome := dispatch client i s in
  fst outcome = Ok tt
  /\ tasks (store (snd outcome)) = tasks (store s)
  /\ events (store (snd outcome)) = events (store s)
  /\ store (snd outcome)
     = with_loading false (with_error (failurePrefix i ++ e) (store s))
  /\ world (snd outcome) = w'.
Proof.
  intros Ha Hf. simpl. rewrite (dispatch_accepted client _ _ Ha).
  destruct Hf as [Hs | request w1 Hs Hw | request hash w1 w2 Hs Hw Hc].
  - rewrite Hs. simpl. auto.
  - rewrite Hs, Hw. simpl. auto.
  - rewrite Hs, Hw, Hc. simpl. auto.
Qed.

Lemma trim_noOuterWhitespace d : noOuterWhitespace (JsString.trim d).
Proof.
  split; intros; [eapply JsStringFacts.trim_head
                 | eapply JsStringFacts.trim_last]; eassumption.
Qed.

(** C10.  An accepted create or update with input text [d] first
    simulates a call whose only string argument is [trim d], which
    neither starts nor ends with whitespace; no other simulation is made,
    and whatever is submitted is the request that this simulation
    prepared. *)
Theorem submitted_description_is_trimmed i (s : Sys) wallet d :
  i = Create \/ i = Update ->
  intentDescription (store s) i = Some d ->
  walletClient (store s) = Some wallet ->
  ~ JsString.whitespaceOnly d ->
  exists p rest,
    trace (snd (dispatch client i s))
    = trace s ++ CallSimulateContract p :: rest
    /\ stringArgs (args p) = [JsString.trim d]
    /\ noOuterWhitespace (JsString.trim d)
    /\ (forall p', ~ In (CallSimulateContract p') rest)
    /\ (forall request, In (CallWriteContract request) rest ->
          simulateContract client (world s) p = Ok request).
Proof.
  intros Hi Hd Hw Hws.
  assert (Ht : JsString.trim d <> []).
  { intros Ht. apply Hws. now apply JsStringFacts.trim_nil. }
  assert (Ha : exists p, acceptedCall (store s) i = Some (wallet, p)
                         /\ stringArgs (args p) = [JsString.trim d]).
  { unfold acceptedCall. rewrite Hw.
    destruct Hi as [-> | ->]; simpl in Hd.
    - injection Hd as ->.
      destruct (JsString.trim d) as [|c r] eqn:E; [congruence|].
      eexists. split; reflexivity.
    - destruct (editingTask (store s)) as [[id d']|]; [|discriminate].
      simpl in Hd. injection Hd as ->.
      destruct (JsString.trim d) as [|c r] eqn:E; [congruence|].
      eexists. split; reflexivity. }
  destruct Ha as [p [Ha Hargs]].
  destruct (dispatch_trace _ _ Ha) as [rest [_ [Htr [Hns Hsub]]]].
  exists p, rest. auto using trim_noOuterWhitespace.
Qed.

End Claims.

(** ** The normalizer and the rendered feed *)

(** C4, as the source has it.  The normalized event of every raw record, of
    whatever kind, carries no description, also when the raw record has
    one; kind, task id, block height and transaction reference are carried
    through unchanged. *)
Theorem normalized_event_carries_no_description (log : Log.t) :
  Event.description (processEvent log) = None
  /\ Event.type (processEvent log) = Log.eventName log
  /\ Event.id (processEvent log) = Log.id (Log.args log)
  /\ Event.blockNumber (processEvent log) = Log.blockNumber log
  /\ Event.transactionHash (processEvent log) = Log.transactionHash log.
Proof. repeat split. Qed.

(** C4, as the specification states it, fails: the [TaskCreated] record of
    task 1 with description "a" in block 10 is normalized to an event
    without description. *)
Lemma normalized_event_description_counterexample :
  ~ (forall log d,
       Log.well_shaped log = true ->
       Log.eventName log = TaskCreated \/ Log.eventName log = TaskUpdated ->
       Log.description (Log.args log) = Some d ->
       Event.description (processEvent log) = Some d
       /\ Event.id (processEvent log) = Log.id (Log.args log)
       /\ Event.blockNumber (processEvent log) = Log.blockNumber log
       /\ Event.transactionHash (processEvent log) = Log.transactionHash log).
Proof.
  intros H.
  destruct (H Demo.createdLog (JsString.lit "a") eq_refl (or_introl eq_refl)
              eq_refl) as [Hd _].
  discriminate Hd.
Qed.

Lemma mapi_from_length (A B : Type) (f : A -> nat -> B) l : forall i,
  List.length (mapi_from f i l) = List.length l.
Proof. induction l as [|x l IH]; intros i; simpl; auto. Qed.

Lemma mapi_from_map (A B C : Type) (f : A -> nat -> B) (g : B -> C) l :
  forall i,
  List.map g (mapi_from f i l) = mapi_from (fun x k => g (f x k)) i l.
Proof.
  induction l as [|x l IH]; intros i; simpl; [reflexivity|].
  now rewrite IH.
Qed.

Lemma mapi_from_fst (A : Type) (l : list A) : forall i,
  mapi_from (fun x _ => x) i l = l.
Proof.
  induction l as [|x l IH]; intros i; simpl; [reflexivity|].
  now rewrite IH.
Qed.

(** C9.  The rendered feed consists of the first 20 stored events, in
    order: never more than 20 entries, and exactly 20 once the store holds
    at least that many. *)
Theorem rendered_feed_at_most_twenty (events : list Event.t) :
  (List.length (renderEvents events) <= 20)%nat
  /\ List.map Card.event (renderEvents events) = firstn 20 events
  /\ List.length (renderEvents events) = Nat.min 20 (List.length events).
Proof.
  assert (Hm : List.map Card.event (renderEvents events) = firstn 20 events).
  { unfold renderEvents, slice0. destruct events as [|e events];
      [reflexivity|].
    rewrite mapi_from_map. cbn [Card.event]. apply mapi_from_fst. }
  assert (Hl : List.length (renderEvents events)
               = Nat.min 20 (List.length events)).
  { rewrite <- (length_map Card.event), Hm. apply length_firstn. }
  split; [rewrite Hl; apply Nat.le_min_l | auto].
Qed.

(** ** The properties on concrete ledgers *)

(** First end-to-end scenario: [Created(1,"a")@10, Updated(1,"b")@12] with
    task 1 reading as [{1,"b",false}] gives the task list [[{1,"b",false}]]
    and the feed [[Updated(1)@12; Created(1)@10]]. *)
Example scenario_created_then_updated :
  let s' := snd (loadTasksAndEvents Demo.client Demo.scenarioSys) in
  tasks (store s') = [Task.mk 1 (JsString.lit "b") false]
  /\ List.map (fun e => (Event.type e, Event.id e, Event.blockNumber e))
       (events (store s'))
     = [(TaskUpdated, 1, 12); (TaskCreated, 1, 10)].
Proof. split; reflexivity. Qed.

(** Second scenario: creating "buy milk" simulates, submits, waits and
    reloads; the new task and its [TaskCreated] entry are in the store. *)
Example scenario_create_buy_milk :
  let s' := snd (dispatch Demo.client Create Demo.milkSys) in
  In (Task.mk 2 (JsString.lit "buy milk") false) (tasks (store s'))
  /\ List.map (fun e => (Event.type e, Event.id e)) (firstn 1 (events (store s')))
     = [(TaskCreated, 2)]
  /\ newTaskDescription (store s') = []
  /\ error (store s') = [].
Proof. vm_compute. auto. Qed.

(** Third scenario: completing the already completed task 2 is reverted at
    the dry-run; nothing is submitted and tasks and events stay as they
    were. *)
Example scenario_complete_twice :
  let s := Demo.threeSys [] in
  let s' := snd (dispatch Demo.client (Complete 2) s) in
  trace s' = [CallSimulateContract Demo.completeSecond]
  /\ tasks (store s') = tasks (store s)
  /\ events (store s') = events (store s)
  /\ error (store s')
     = JsString.lit "Failed to complete task: already completed".
Proof. vm_compute. auto. Qed.

(** [trim] strips NBSP, line feeds and ideographic spaces, but not the
    zero-width space. *)
Example trim_code_units :
  JsString.trim (JsString.lit "  a b  ") = JsString.lit "a b"
  /\ JsString.trim [0x00A0; 0x000A; 0x3000]%N = []
  /\ JsString.trim [0x200B]%N = [0x200B]%N.
Proof. repeat split. Qed.

Lemma event_feed_sorted_descending_stable_witness :
  heightDescending
    (events (store (snd (loadTasksAndEvents Demo.client Demo.scenarioSys)))).
Proof.
  refine (proj1 (@event_feed_sorted_descending_stable _ _ _ Demo.client
                   Demo.scenarioSys Demo.scenarioLogs _)).
  reflexivity.
Defined.

Lemma reconstructed_ids_exactly_created_witness :
  NoDup (List.map Task.id
           (tasks (store (snd (loadTasksAndEvents Demo.client
                                 (Demo.threeSys [])))))).
Proof.
  refine (proj1 (@reconstructed_ids_exactly_created _ _ _ Demo.client
                   (Demo.threeSys []) Demo.threeLogs _ _)).
  - reflexivity.
  - intros i [log [Hin [Hn Hi]]]. simpl in Hin.
    destruct Hin as [<-|[<-|[<-|[<-|[]]]]]; simpl in Hn, Hi; subst i;
      try discriminate Hn; eexists; split; reflexivity.
Defined.

Lemma one_failed_read_omits_one_task_witness :
  List.length
    (tasks (store (snd (loadTasksAndEvents Demo.client (Demo.threeSys [2])))))
  = 2%nat.
Proof.
  refine (proj1 (proj2 (proj2
    (@one_failed_read_omits_one_task _ _ _ Demo.client (Demo.threeSys [2])
       Demo.threeLogs [1; 2; 3] 2 (JsString.lit "HTTP request failed")
       _ _ _ _ _ _)))).
  - reflexivity.
  - repeat constructor; simpl; intros H;
      repeat (destruct H as [H|H]; [discriminate H|]); exact H.
  - intros i. split.
    + intros [<-|[<-|[<-|[]]]];
        [exists (nth 0 Demo.threeLogs Demo.createdLog)
        |exists (nth 1 Demo.threeLogs Demo.createdLog)
        |exists (nth 2 Demo.threeLogs Demo.createdLog)];
        simpl; auto 10.
    + intros [log [Hin [Hn Hi]]]. simpl in Hin.
      destruct Hin as [<-|[<-|[<-|[<-|[]]]]]; simpl in Hn, Hi; subst i;
        try discriminate Hn; simpl; auto.
  - simpl. auto.
  - reflexivity.
  - intros i [<-|[<-|[<-|[]]]] Hi; try congruence; eexists; reflexivity.
Defined.

Lemma read_path_idempotent_witness :
  store (snd (loadTasksAndEvents Demo.client
                (mkSys
                   (store (snd (loadTasksAndEvents Demo.client
                                  Demo.scenarioSys)))
                   Demo.scenarioWorld
                   (trace (snd (loadTasksAndEvents Demo.client
                                  Demo.scenarioSys))))))
  = store (snd (loadTasksAndEvents Demo.client Demo.scenarioSys)).
Proof.
  refine (proj2 (proj2 (@read_path_idempotent _ _ _ Demo.client
                          Demo.scenarioSys Demo.scenarioWorld _ _))).
  - reflexivity.
  - intros i. reflexivity.
Defined.

Lemma guard_rejects_before_simulating_witness :
  dispatch Demo.client Create Demo.blankSys = (Ok tt, Demo.blankSys).
Proof.
  refine (@guard_rejects_before_simulating _ _ _ Demo.client Create
            Demo.blankSys _).
  left. exists (JsString.lit "   "). split; [reflexivity|].
  repeat constructor.
Defined.

Lemma simulate_failure_never_submits_witness :
  error (store (snd (dispatch Demo.client (Complete 2) (Demo.threeSys []))))
  = JsString.lit "Failed to complete task: " ++ JsString.lit "already completed".
Proof.
  refine (proj1 (proj2 (proj2 (proj2
    (@simulate_failure_never_submits _ _ _ Demo.client (Complete 2)
       (Demo.threeSys []) Demo.completeSecond
       (JsString.lit "already completed")
       [CallSimulateContract Demo.completeSecond] _ _ _))))).
  - reflexivity.
  - left. reflexivity.
  - reflexivity.
Defined.

Lemma failed_write_keeps_snapshot_witness :
  store (snd (dispatch Demo.decliningClient Create Demo.milkSys))
  = with_loading false
      (with_error
         (JsString.lit "Failed to create task: "
          ++ JsString.lit "User rejected the request.")
         (store Demo.milkSys)).
Proof.
  refine (proj1 (proj2 (proj2 (proj2
    (@failed_write_keeps_snapshot _ _ _ Demo.decliningClient Create
       Demo.milkSys tt
       (mkSimulate FnCreateTask [AbiString (JsString.lit "buy milk")]
          (JsString.lit "0x01"))
       (JsString.lit "User rejected the request.")
       Demo.scenarioWorld _ _))))).
  - reflexivity.
  - eapply FailsAtSubmit; reflexivity.
Defined.

Lemma submitted_description_is_trimmed_witness :
  exists p rest,
    trace (snd (dispatch Demo.client Create Demo.paddedSys))
    = trace Demo.paddedSys ++ CallSimulateContract p :: rest
    /\ stringArgs (args p) = [JsString.trim (JsString.lit "  buy milk ")]
    /\ noOuterWhitespace (JsString.trim (JsString.lit "  buy milk "))
    /\ (forall p', ~ In (CallSimulateContract p') rest)
    /\ (forall request, In (CallWriteContract request) rest ->
          simulateContract Demo.client (world Demo.paddedSys) p = Ok request).
Proof.
  refine (@submitted_description_is_trimmed _ _ _ Demo.client Create
            Demo.paddedSys tt (JsString.lit "  buy milk ") _ _ _ _).
  - left. reflexivity.
  - reflexivity.
  - reflexivity.
  - intros H. apply JsStringFacts.trim_nil in H. discriminate H.
Defined.

(** * Further properties of the handlers *)

Section MoreHandlerFacts.

Variables World Request WalletClient : Type.
Variable client : Client World Request WalletClient.

Local Abbreviation Sys := (Sys World Request WalletClient).
Local Abbreviation Store := (Store WalletClient).

Lemma reconstructedTasks_sorted w logs :
  idAscending (reconstructedTasks client w logs).
Proof. exact (@sort_sorted _ _ _ compareTasks_key _). Qed.

(** What a write handler leaves in the store: nothing new, a failure
    message, or the result of the reload that follows a confirmed write. *)
Lemma dispatch_store_cases i (s : Sys) :
  store (snd (dispatch client i s)) = store s
  \/ (exists m, store (snd (dispatch client i s))
                = with_loading false (with_error m (store s)))
  \/ (exists x : Sys,
        store x = epilogue i (with_error [] (with_loading true (store s)))
        /\ store (snd (dispatch client i s))
           = with_loading false (store (snd (loadTasksAndEvents client x)))).
Proof.
  destruct (acceptedCall (store s) i) as [[wallet p]|] eqn:Ha.
  - rewrite (dispatch_accepted client _ _ Ha).
    destruct (simulateContract client (world s) p) as [request|e];
      [|right; left; eexists; reflexivity].
    destruct (writeContract client wallet (world s) request)
      as [[hash|e] w1]; [|right; left; eexists; reflexivity].
    destruct (waitForTransactionReceipt client w1 hash) as [[[]|e] w2];
      [|right; left; eexists; reflexivity].
    right; right. eexists. split; [|reflexivity]. reflexivity.
  - left. now rewrite (dispatch_rejected client _ _ Ha).
Qed.

Lemma load_store_cases (s : Sys) :
  (exists logs,
     getLogs client (world s) = Ok logs
     /\ store (snd (loadTasksAndEvents client s))
        = with_loading false
            (with_tasks (reconstructedTasks client (world s) logs)
               (with_events (eventFeed logs) (store s))))
  \/ (exists e,
        getLogs client (world s) = Throw e
        /\ store (snd (loadTasksAndEvents client s))
           = with_loading false
               (with_error (JsString.lit "Failed to load tasks: " ++ e)
                  (store s))).
Proof.
  destruct (getLogs client (world s)) as [logs|e] eqn:E.
  - left. exists logs. split; [reflexivity|].
    now rewrite (loadTasksAndEvents_ok _ _ E).
  - right. exists e. split; [reflexivity|].
    now rewrite (@loadTasksAndEvents_fail _ _ _ client s e E).
Qed.

(** X1.  When the log query fails with message [e], the read path returns
    normally after that single call: no point-read is made, tasks and
    events keep the previous snapshot, and the stored error is
    "Failed to load tasks: " followed by [e]. *)
Theorem failed_log_fetch_keeps_snapshot (s : Sys) e :
  getLogs client (world s) = Throw e ->
  fst (loadTasksAndEvents client s) = Ok tt
  /\ trace (snd (loadTasksAndEvents client s)) = trace s ++ [CallGetLogs]
  /\ tasks (store (snd (loadTasksAndEvents client s))) = tasks (store s)
  /\ events (store (snd (loadTasksAndEvents client s))) = events (store s)
  /\ store (snd (loadTasksAndEvents client s))
     = with_loading false
         (with_error (JsString.lit "Failed to load tasks: " ++ e) (store s)).
Proof.
  intros H. rewrite (@loadTasksAndEvents_fail _ _ _ client s e H). simpl.
  repeat split.
Qed.

(** X2.  Whatever the ledger answers, the read path returns normally,
    leaves the ledger, the account, the wallet client, both input boxes and
    the balance as they were, ends with the busy flag cleared, and calls
    the ledger client only for the log query and point-reads. *)
Theorem read_path_frame (s : Sys) :
  fst (loadTasksAndEvents client s) = Ok tt
  /\ world (snd (loadTasksAndEvents client s)) = world s
  /\ account (store (snd (loadTasksAndEvents client s))) = account (store s)
  /\ walletClient (store (snd (loadTasksAndEvents client s)))
     = walletClient (store s)
  /\ newTaskDescription (store (snd (loadTasksAndEvents client s)))
     = newTaskDescription (store s)
  /\ editingTask (store (snd (loadTasksAndEvents client s)))
     = editingTask (store s)
  /\ balance (store (snd (loadTasksAndEvents client s))) = balance (store s)
  /\ loading (store (snd (loadTasksAndEvents client s))) = false
  /\ exists ids,
       trace (snd (loadTasksAndEvents client s))
       = trace s ++ CallGetLogs :: List.map (@CallReadContract Request) ids.
Proof.
  destruct (getLogs client (world s)) as [logs|e] eqn:E.
  - rewrite (loadTasksAndEvents_ok _ _ E). simpl.
    repeat split. eexists. reflexivity.
  - rewrite (@loadTasksAndEvents_fail _ _ _ client s e E). simpl.
    repeat split. now exists [].
Qed.

(** X3.  A pass whose log query succeeds does not clear an error recorded
    before it: the error cell is left as it was. *)
Theorem successful_reload_keeps_error (s : Sys) logs :
  getLogs client (world s) = Ok logs ->
  error (store (snd (loadTasksAndEvents client s))) = error (store s).
Proof.
  intros H. now rewrite (loadTasksAndEvents_ok _ _ H).
Qed.

Lemma sortedStore_load (s : Sys) :
  sortedStore (store s) ->
  sortedStore (store (snd (loadTasksAndEvents client s))).
Proof.
  intros [Ht He].
  destruct (load_store_cases s) as [[logs [_ ->]]|[e [_ ->]]].
  - split; simpl.
    + apply reconstructedTasks_sorted.
    + apply eventFeed_heightDescending.
  - split; assumption.
Qed.

(** X4.  Presentation order is an invariant of the store: if the tasks are
    ascending by id and the events descending by block height, they still
    are after a pass of the read path and after any write handler,
    whatever the ledger answers. *)
Theorem sorted_store_invariant (s : Sys) :
  sortedStore (store s) ->
  sortedStore (store (snd (loadTasksAndEvents client s)))
  /\ forall i, sortedStore (store (snd (dispatch client i s))).
Proof.
  intros H. split; [now apply sortedStore_load|]. intros i.
  destruct (dispatch_store_cases i s) as [->|[[m ->]|[x [Hx ->]]]].
  - exact H.
  - exact H.
  - assert (Hs : sortedStore (store x)).
    { rewrite Hx. destruct H as [Ht He]. destruct i; split; assumption. }
    apply sortedStore_load in Hs. destruct Hs as [Ht He].
    split; assumption.
Qed.

(** X5.  After a successful log query the read path issues one point-read
    for each created id and no other: the ids read are pairwise distinct
    and are exactly the ids of the [TaskCreated] records. *)
Theorem point_reads_once_per_created_id (s : Sys) logs :
  getLogs client (world s) = Ok logs ->
  exists ids,
    trace (snd (loadTasksAndEvents client s))
    = trace s ++ CallGetLogs :: List.map (@CallReadContract Request) ids
    /\ NoDup ids
    /\ (forall i, In i ids <-> createdIn logs i).
Proof.
  intros H. exists (collectTaskIds logs).
  rewrite (loadTasksAndEvents_ok _ _ H). simpl.
  split; [reflexivity|]. split.
  - apply collectTaskIds_NoDup.
  - apply collectTaskIds_In.
Qed.

(** X6.  The calls of one write handler run, in order: nothing; or a
    reverted dry-run; or a dry-run and a failed submission of the request
    it prepared; or those and a failed wait for the hash the submission
    returned; or all three followed by the log query and point-reads of
    the reload.  So there is at most one submission, and a reload only
    after a confirmation. *)
Theorem write_calls_in_order i (s : Sys) :
  exists newCalls,
    trace (snd (dispatch client i s)) = trace s ++ newCalls
    /\ WriteTrace client (world s) newCalls.
Proof.
  destruct (acceptedCall (store s) i) as [[wallet p]|] eqn:Ha.
  - rewrite (dispatch_accepted client _ _ Ha).
    destruct (simulateContract client (world s) p) as [request|e] eqn:Hs.
    2:{ eexists. split; [reflexivity|]. eapply TraceReverted; eassumption. }
    destruct (writeContract client wallet (world s) request)
      as [[hash|e] w1] eqn:Hw.
    2:{ eexists. split; [reflexivity|].
        eapply TraceNotSubmitted; eassumption. }
    destruct (waitForTransactionReceipt client w1 hash)
      as [[u|e] w2] eqn:Hc.
    2:{ eexists. split; [reflexivity|].
        eapply TraceNotConfirmed; eassumption. }
    match goal with
    | |- context [loadTasksAndEvents client ?x] =>
        destruct (loadTasksAndEvents_total client x) as [st [ids Hl]];
        rewrite Hl
    end.
    eexists. split.
    + simpl. rewrite <- app_assoc. reflexivity.
    + simpl. eapply (@TraceReloaded _ _ _ client (world s) wallet p request
                       hash u w1 w2 ids); assumption.
  - rewrite (dispatch_rejected client _ _ Ha). exists []. split.
    + now rewrite app_nil_r.
    + constructor.
Qed.

Lemma confirmedWorld_Some w wallet p w2 :
  confirmedWorld client w wallet p = Some w2 ->
  exists request hash w1 u,
    simulateContract client w p = Ok request
    /\ writeContract client wallet w request = (Ok hash, w1)
    /\ waitForTransactionReceipt client w1 hash = (Ok u, w2).
Proof.
  unfold confirmedWorld.
  destruct (simulateContract client w p) as [request|e] eqn:Hs;
    [|discriminate].
  destruct (writeContract client wallet w request) as [[hash|e] w1] eqn:Hw;
    [|discriminate].
  destruct (waitForTransactionReceipt client w1 hash) as [[u|e] w2'] eqn:Hc;
    [|discriminate].
  intros H. injection H as <-. exists request, hash, w1, u. auto.
Qed.

(** X7.  When an accepted write is confirmed, leaving the ledger in [w2],
    and the reload's log query succeeds there, the store ends with the
    tasks and events the read path derives from [w2], no error, the busy
    flag cleared, and the handler's input reset: the create box emptied,
    the edit form closed. *)
Theorem confirmed_write_reloads_from_confirmed_ledger
  i (s : Sys) wallet p w2 logs :
  acceptedCall (store s) i = Some (wallet, p) ->
  confirmedWorld client (world s) wallet p = Some w2 ->
  getLogs client w2 = Ok logs ->
  world (snd (dispatch client i s)) = w2
  /\ store (snd (dispatch client i s))
     = with_loading false
         (with_tasks (reconstructedTasks client w2 logs)
            (with_events (eventFeed logs)
               (epilogue i (with_error [] (store s)))))
  /\ error (store (snd (dispatch client i s))) = []
  /\ newTaskDescription (store (snd (dispatch client i s)))
     = match i with
       | Create => []
       | _ => newTaskDescription (store s)
       end
  /\ editingTask (store (snd (dispatch client i s)))
     = match i with
       | Update => None
       | _ => editingTask (store s)
       end.
Proof.
  intros Ha Hc Hl.
  destruct (confirmedWorld_Some _ _ _ Hc)
    as [request [hash [w1 [u [Hs [Hw Hr]]]]]].
  rewrite (dispatch_accepted client _ _ Ha), Hs, Hw, Hr.
  destruct u.
  rewrite (@loadTasksAndEvents_ok _ _ _ client (mkSys _ w2 _) logs Hl).
  destruct i; simpl; repeat split.
Qed.

(** X8.  When an accepted write is confirmed but the reload's log query
    then fails with message [e], the handler still returns normally; the
    store keeps the previous tasks and events, has the handler's input
    reset, and reports "Failed to load tasks: " followed by [e], not a
    failure of the write. *)
Theorem confirmed_write_with_failed_reload i (s : Sys) wallet p w2 e :
  acceptedCall (store s) i = Some (wallet, p) ->
  confirmedWorld client (world s) wallet p = Some w2 ->
  getLogs client w2 = Throw e ->
  fst (dispatch client i s) = Ok tt
  /\ world (snd (dispatch client i s)) = w2
  /\ tasks (store (snd (dispatch client i s))) = tasks (store s)
  /\ events (store (snd (dispatch client i s))) = events (store s)
  /\ store (snd (dispatch client i s))
     = with_loading false
         (with_error (JsString.lit "Failed to load tasks: " ++ e)
            (epilogue i (store s))).
Proof.
  intros Ha Hc Hl.
  destruct (confirmedWorld_Some _ _ _ Hc)
    as [request [hash [w1 [u [Hs [Hw Hr]]]]]].
  rewrite (dispatch_accepted client _ _ Ha), Hs, Hw, Hr.
  destruct u.
  rewrite (@loadTasksAndEvents_fail _ _ _ client (mkSys _ w2 _) e Hl).
  destruct i; simpl; repeat split.
Qed.

(** X9.  The handlers do not look at the busy flag: an accepted intent
    issued while [loading] is set runs exactly as it does when idle. *)
Theorem busy_flag_does_not_block_handlers i (s : Sys) wallet p b :
  acceptedCall (store s) i = Some (wallet, p) ->
  dispatch client i (mkSys (with_loading b (store s)) (world s) (trace s))
  = dispatch client i s.
Proof.
  intros Ha.
  assert (Hb : acceptedCall
                 (store (mkSys (with_loading b (store s)) (world s) (trace s)))
                 i = Some (wallet, p)) by exact Ha.
  rewrite (dispatch_accepted client _ _ Hb), (dispatch_accepted client _ _ Ha).
  simpl.
  destruct (simulateContract client (world s) p) as [request|e];
    [|reflexivity].
  destruct (writeContract client wallet (world s) request)
    as [[hash|e] w1]; [|reflexivity].
  destruct (waitForTransactionReceipt client w1 hash) as [[[]|e] w2];
    [|reflexivity].
  destruct i; reflexivity.
Qed.

(** X10.  Every write handler returns normally, whatever the ledger and
    the wallet answer, and leaves the account, the wallet client and the
    balance as they were. *)
Theorem handlers_keep_connection i (s : Sys) :
  fst (dispatch client i s) = Ok tt
  /\ account (store (snd (dispatch client i s))) = account (store s)
  /\ walletClient (store (snd (dispatch client i s))) = walletClient (store s)
  /\ balance (store (snd (dispatch client i s))) = balance (store s).
Proof.
  split.
  - destruct (acceptedCall (store s) i) as [[wallet p]|] eqn:Ha.
    + now destruct (dispatch_trace client _ _ Ha) as [rest [H _]].
    + now rewrite (dispatch_rejected client _ _ Ha).
  - destruct (dispatch_store_cases i s) as [->|[[m ->]|[x [Hx ->]]]];
      [auto | simpl; auto |].
    destruct (load_store_cases x) as [[logs [_ ->]]|[e [_ ->]]];
      rewrite Hx; destruct i; simpl; auto.
Qed.

End MoreHandlerFacts.

(** ** [formatAddress] *)

Lemma firstn_min_length (A : Type) (k : nat) (l : list A) :
  firstn (Nat.min k (List.length l)) l = firstn k l.
Proof.
  destruct (Nat.le_ge_cases k (List.length l)) as [H|H].
  - now rewrite Nat.min_l.
  - rewrite Nat.min_r by exact H.
    rewrite firstn_all. symmetry. now apply firstn_all2.
Qed.

(** X11.  [formatAddress] shows the first six code units, three dots and
    the last four; on input shorter than that the two parts are simply
    whatever is there (and overlap), so the result has
    [min 6 n + 3 + min 4 n] code units: 13 for every input of at least six,
    in particular for a 42-character address. *)
Theorem formatAddress_shape (address : jsstring) :
  formatAddress address
  = firstn 6 address ++ JsString.lit "..."
    ++ skipn (List.length address - 4) address
  /\ List.length (formatAddress address)
     = (Nat.min 6 (List.length address) + 3
        + Nat.min 4 (List.length address))%nat.
Proof.
  assert (H : formatAddress address
              = firstn 6 address ++ JsString.lit "..."
                ++ skipn (List.length address - 4) address).
  { unfold formatAddress, slice, clampIndex.
    change (6 <? 0) with false. change (0 <? 0) with false.
    change (-4 <? 0) with true. cbv iota.
    f_equal; [|f_equal].
    - replace (Z.to_nat (Z.min 0 (Z.of_nat (List.length address)))) with 0%nat
        by lia.
      replace (Z.to_nat (Z.min 6 (Z.of_nat (List.length address))
                         - Z.min 0 (Z.of_nat (List.length address))))
        with (Nat.min 6 (List.length address)) by lia.
      simpl skipn. apply firstn_min_length.
    - replace (Z.to_nat (Z.max (Z.of_nat (List.length address) + -4) 0))
        with (List.length address - 4)%nat by lia.
      apply firstn_all2. rewrite length_skipn. lia. }
  split; [exact H|].
  rewrite H, !length_app, length_firstn, length_skipn.
  change (List.length (JsString.lit "...")) with 3%nat. lia.
Qed.

(** ** Wallet connection *)

Lemma find_first (A : Type) (f : A -> bool) l x :
  find f l = Some x ->
  exists before after,
    l = before ++ x :: after /\ f x = true
    /\ forall y, In y before -> f y = false.
Proof.
  induction l as [|a l IH]; simpl; [discriminate|].
  destruct (f a) eqn:E.
  - intros H. injection H as <-. exists [], l. repeat split; auto.
    intros y [].
  - intros H. destruct (IH H) as [before [after [Hl [Hx Hb]]]].
    exists (a :: before), after. repeat split; auto.
    + simpl. now rewrite Hl.
    + intros y [<-|Hy]; auto.
Qed.

Section WalletFacts.

Variable WalletClient : Type.
Variable createWalletClient : Provider -> WalletClient.

Local Abbreviation Store := (Store WalletClient).
Local Abbreviation connect := (connectWallet createWalletClient).
Local Abbreviation check := (checkConnection createWalletClient).

(** X12.  [connectWallet] never touches tasks, events, the input boxes,
    the busy flag or the balance, and it sets account and wallet client
    only together: either both are as before, or the provider returned a
    non-empty account list, the account is its first entry and the wallet
    client is the one created over the selected provider. *)
Theorem connect_sets_wallet_and_account_together
  (ethereum : option Ethereum) (st : Store) :
  let st' := fst (connect ethereum st) in
  tasks st' = tasks st
  /\ events st' = events st
  /\ newTaskDescription st' = newTaskDescription st
  /\ editingTask st' = editingTask st
  /\ loading st' = loading st
  /\ balance st' = balance st
  /\ ((walletClient st' = walletClient st /\ account st' = account st)
      \/ exists eth first rest,
           ethereum = Some eth
           /\ eth_requestAccounts (selectProvider eth) = RpcOk (first :: rest)
           /\ account st' = first
           /\ walletClient st'
              = Some (createWalletClient (selectProvider eth))).
Proof.
  cbv zeta. unfold connectWallet.
  destruct ethereum as [eth|]; [|simpl; repeat split; auto].
  destruct (eth_requestAccounts (selectProvider eth))
    as [[|first rest]|code message] eqn:Ha;
    [simpl; repeat split; auto | | simpl; repeat split; auto].
  assert (Hr : exists eth0 first0 rest0,
             Some eth = Some eth0
             /\ eth_requestAccounts (selectProvider eth0)
                = RpcOk (first0 :: rest0)
             /\ first = first0
             /\ Some (createWalletClient (selectProvider eth))
                = Some (createWalletClient (selectProvider eth0))).
  { exists eth, first, rest. auto. }
  cbv zeta.
  destruct (wallet_switchEthereumChain (selectProvider eth) liskSepoliaChainId)
    as [[]|[c|] message];
    [simpl; repeat split; try reflexivity; right; exact Hr | |
     simpl; repeat split; try reflexivity; right; exact Hr].
  destruct (wallet_addEthereumChain (selectProvider eth) liskSepoliaParams)
    as [[]|code' message'];
    destruct c as [|c|c];
    try (simpl; repeat split; try reflexivity; right; exact Hr);
    repeat (destruct c as [c|c|];
            try (simpl; repeat split; try reflexivity; right; exact Hr)).
Qed.

(** X13.  When [window.ethereum] lists several providers and one of them
    is MetaMask, the provider used is the first MetaMask entry of the list,
    not the injected object itself. *)
Theorem connect_prefers_metamask (eth : Ethereum) ps q :
  providers eth = Some ps ->
  In q ps ->
  isMetaMask q = true ->
  isMetaMask (selectProvider eth) = true
  /\ exists before after,
       ps = before ++ selectProvider eth :: after
       /\ forall p, In p before -> isMetaMask p = false.
Proof.
  intros Hp Hq Hm. unfold selectProvider. rewrite Hp.
  destruct (find isMetaMask ps) as [p|] eqn:Hf.
  - destruct (find_first _ _ Hf) as [before [after [Hl [Hx Hb]]]].
    split; [exact Hx|]. now exists before, after.
  - pose proof (find_none _ _ Hf q Hq) as Hn. congruence.
Qed.

(** X14.  When the account request succeeds, the wallet does not know the
    chain (error code 4902) and the request to add the chain fails with
    message [m], the error "Failed to connect wallet: [m]" is shown while
    the account and the wallet client stay set. *)
Theorem connect_chain_add_failure_keeps_wallet
  (eth : Ethereum) (st : Store) first rest m0 code m :
  eth_requestAccounts (selectProvider eth) = RpcOk (first :: rest) ->
  wallet_switchEthereumChain (selectProvider eth) liskSepoliaChainId
  = RpcError (Some 4902) m0 ->
  wallet_addEthereumChain (selectProvider eth) liskSepoliaParams
  = RpcError code m ->
  connect (Some eth) st
  = (with_error (connectFailure m)
       (with_account first
          (with_walletClient (Some (createWalletClient (selectProvider eth)))
             st)),
     [ReqEthRequestAccounts; ReqSwitchEthereumChain liskSepoliaChainId;
      ReqAddEthereumChain liskSepoliaParams]).
Proof.
  intros Ha Hs Hc. unfold connectWallet. rewrite Ha, Hs, Hc. reflexivity.
Qed.

(** X15.  When the chain switch fails with any error other than code 4902
    (a declined request, say), nothing is reported: the wallet is
    connected, the error cell is empty, and no request to add the chain is
    made. *)
Theorem connect_ignores_other_switch_errors
  (eth : Ethereum) (st : Store) first rest code m :
  eth_requestAccounts (selectProvider eth) = RpcOk (first :: rest) ->
  wallet_switchEthereumChain (selectProvider eth) liskSepoliaChainId
  = RpcError code m ->
  code <> Some 4902 ->
  connect (Some eth) st
  = (with_account first
       (with_walletClient (Some (createWalletClient (selectProvider eth)))
          (with_error [] st)),
     [ReqEthRequestAccounts; ReqSwitchEthereumChain liskSepoliaChainId]).
Proof.
  intros Ha Hs Hne. unfold connectWallet. rewrite Ha, Hs.
  destruct code as [c|]; [|reflexivity].
  destruct c as [|c|c]; try reflexivity.
  repeat (destruct c as [c|c|]; try reflexivity). congruence.
Qed.


(** *** The task panel *)

(** X18.  The spinner replaces the task list only while loading with no
    task stored; as soon as tasks are stored, every one of them is shown,
    in stored order, also during a reload, and a row offers the edit and
    complete buttons only for a task that is not completed. *)
Theorem task_panel_shows_every_task (st : Store) :
  (renderTasks st = PanelLoading <-> loading st = true /\ tasks st = [])
  /\ (tasks st <> [] ->
      exists rows,
        renderTasks st = PanelRows rows
        /\ List.map rowTask rows = tasks st
        /\ forall r, In r rows -> rowOffersActions r = true ->
                     Task.completed (rowTask r) = false).
Proof.
  unfold renderTasks. split.
  - destruct (tasks st) as [|t ts]; simpl.
    + destruct (loading st); simpl; split; try tauto; try discriminate.
      intros [H _]. discriminate.
    + rewrite andb_false_r. split; [discriminate|]. intros [_ H].
      discriminate.
  - intros Hne. destruct (tasks st) as [|t ts] eqn:Et; [congruence|].
    simpl Nat.eqb. rewrite andb_false_r.
    eexists. split; [reflexivity|]. split.
    + rewrite map_map. rewrite <- (map_id (t :: ts)) at 2.
      apply map_ext. intros a. unfold renderTaskRow.
      destruct (editingTask st) as [[id text]|]; [|reflexivity].
      now destruct (id =? Task.id a).
    + intros r Hr Ha. apply in_map_iff in Hr. destruct Hr as [a [<- _]].
      unfold renderTaskRow in *.
      destruct (editingTask st) as [[id text]|].
      * destruct (id =? Task.id a); simpl in *; [discriminate|].
        now apply negb_true_iff.
      * simpl in *. now apply negb_true_iff.
Qed.

End WalletFacts.

(** X19.  When the create button is enabled and a wallet client is
    present, a click is not turned away by the entry guard: the handler's
    first call is the dry-run of [createTask] with the trimmed input. *)
Theorem enabled_create_button_is_accepted
  (World Request WalletClient : Type)
  (client : Client World Request WalletClient)
  (s : Sys World Request WalletClient) wallet :
  createButtonDisabled (store s) = false ->
  walletClient (store s) = Some wallet ->
  exists rest,
    trace (snd (dispatch client Create s))
    = trace s
      ++ CallSimulateContract
           (mkSimulate FnCreateTask
              [AbiString (JsString.trim (newTaskDescription (store s)))]
              (account (store s)))
         :: rest.
Proof.
  intros Hb Hw. unfold createButtonDisabled in Hb.
  apply orb_false_iff in Hb. destruct Hb as [_ Ht].
  apply negb_false_iff in Ht.
  assert (Ha : acceptedCall (store s) Create
               = Some (wallet,
                       mkSimulate FnCreateTask
                         [AbiString
                            (JsString.trim (newTaskDescription (store s)))]
                         (account (store s)))).
  { unfold acceptedCall. rewrite Hw.
    destruct (JsString.trim (newTaskDescription (store s)));
      [discriminate | reflexivity]. }
  destruct (dispatch_trace client _ _ Ha) as [rest [_ [Htr _]]].
  now exists rest.
Qed.

(** ** The rendered feed, continued *)

Lemma mapi_from_index (A B : Type) (f : A -> nat -> B) (g : B -> nat) l :
  (forall x k, g (f x k) = k) ->
  forall i, List.map g (mapi_from f i l) = seq i (List.length l).
Proof.
  intros Hg. induction l as [|x l IH]; intros i; simpl; [reflexivity|].
  now rewrite Hg, IH.
Qed.

Lemma mapi_from_key l : forall i c,
  In c (mapi_from
          (fun event index =>
             {| Card.keyHash := Event.transactionHash event;
                Card.keyIndex := index;
                Card.event := event |}) i l) ->
  Card.keyHash c = Event.transactionHash (Card.event c).
Proof.
  induction l as [|x l IH]; intros i c; simpl; [intros []|].
  intros [<-|Hc]; [reflexivity | eauto].
Qed.

(** X17.  The rendered entries are numbered 0, 1, 2, ... in order and each
    is keyed by its event's transaction hash and that number, so no two
    entries share a key, also when two events come from one transaction. *)
Theorem rendered_keys_distinct (events : list Event.t) :
  List.map Card.keyIndex (renderEvents events)
  = seq 0 (List.length (renderEvents events))
  /\ (forall c, In c (renderEvents events) ->
        Card.keyHash c = Event.transactionHash (Card.event c))
  /\ NoDup (List.map (fun c => (Card.keyHash c, Card.keyIndex c))
              (renderEvents events)).
Proof.
  assert (Hi : List.map Card.keyIndex (renderEvents events)
               = seq 0 (List.length (renderEvents events))).
  { unfold renderEvents. destruct events as [|e events]; [reflexivity|].
    rewrite mapi_from_length. now apply mapi_from_index. }
  split; [exact Hi|]. split.
  - unfold renderEvents. destruct events as [|e events]; [intros c []|].
    apply mapi_from_key.
  - apply (NoDup_map_inv snd). rewrite map_map. simpl.
    change (NoDup (List.map Card.keyIndex (renderEvents events))).
    rewrite Hi. apply seq_NoDup.
Qed.

(** ** The further properties on concrete ledgers and wallets *)

Lemma failed_log_fetch_keeps_snapshot_witness :
  trace (snd (loadTasksAndEvents Demo.offlineClient Demo.scenarioSys))
  = trace Demo.scenarioSys ++ [CallGetLogs].
Proof.
  refine (proj1 (proj2
    (@failed_log_fetch_keeps_snapshot _ _ _ Demo.offlineClient
       Demo.scenarioSys (JsString.lit "HTTP request failed") _))).
  reflexivity.
Defined.

Lemma successful_reload_keeps_error_witness :
  error (store (snd (loadTasksAndEvents Demo.client Demo.scenarioSys)))
  = error (store Demo.scenarioSys).
Proof.
  refine (@successful_reload_keeps_error _ _ _ Demo.client Demo.scenarioSys
            Demo.scenarioLogs _).
  reflexivity.
Defined.

Lemma sorted_store_invariant_witness :
  sortedStore (store (snd (loadTasksAndEvents Demo.client Demo.scenarioSys))).
Proof.
  refine (proj1 (@sorted_store_invariant _ _ _ Demo.client
                   Demo.scenarioSys _)).
  split; constructor.
Defined.

Lemma point_reads_once_per_created_id_witness :
  exists ids,
    trace (snd (loadTasksAndEvents Demo.client (Demo.threeSys [])))
    = trace (Demo.threeSys [])
      ++ CallGetLogs :: List.map (@CallReadContract Demo.Request) ids
    /\ NoDup ids
    /\ (forall i, In i ids <-> createdIn Demo.threeLogs i).
Proof.
  refine (@point_reads_once_per_created_id _ _ _ Demo.client
            (Demo.threeSys []) Demo.threeLogs _).
  reflexivity.
Defined.

Lemma confirmed_write_reloads_from_confirmed_ledger_witness :
  error (store (snd (dispatch Demo.client Create Demo.milkSys))) = [].
Proof.
  refine (proj1 (proj2 (proj2
    (@confirmed_write_reloads_from_confirmed_ledger _ _ _ Demo.client Create
       Demo.milkSys tt Demo.milkCall
       (Demo.apply Demo.scenarioWorld Demo.milkCall)
       (Demo.chainLogs (Demo.apply Demo.scenarioWorld Demo.milkCall))
       _ _ _)))); reflexivity.
Defined.

Lemma confirmed_write_with_failed_reload_witness :
  tasks (store (snd (dispatch Demo.offlineClient Create Demo.milkSys)))
  = tasks (store Demo.milkSys).
Proof.
  refine (proj1 (proj2 (proj2
    (@confirmed_write_with_failed_reload _ _ _ Demo.offlineClient Create
       Demo.milkSys tt Demo.milkCall
       (Demo.apply Demo.scenarioWorld Demo.milkCall)
       (JsString.lit "HTTP request failed") _ _ _)))); reflexivity.
Defined.

Lemma busy_flag_does_not_block_handlers_witness :
  dispatch Demo.client Create
    (mkSys (with_loading true (store Demo.milkSys)) (world Demo.milkSys)
           (trace Demo.milkSys))
  = dispatch Demo.client Create Demo.milkSys.
Proof.
  refine (@busy_flag_does_not_block_handlers _ _ _ Demo.client Create
            Demo.milkSys tt Demo.milkCall true _).
  reflexivity.
Defined.

Lemma enabled_create_button_is_accepted_witness :
  exists rest,
    trace (snd (dispatch Demo.client Create Demo.paddedSys))
    = trace Demo.paddedSys
      ++ CallSimulateContract
           (mkSimulate FnCreateTask
              [AbiString
                 (JsString.trim (newTaskDescription (store Demo.paddedSys)))]
              (account (store Demo.paddedSys)))
         :: rest.
Proof.
  refine (@enabled_create_button_is_accepted _ _ _ Demo.client
            Demo.paddedSys tt _ _); reflexivity.
Defined.

Lemma connect_prefers_metamask_witness :
  isMetaMask (selectProvider DemoWallet.several) = true.
Proof.
  refine (proj1 (@connect_prefers_metamask DemoWallet.several
                   [DemoWallet.declinesSwitch; DemoWallet.metaMask;
                    DemoWallet.stubborn]
                   DemoWallet.metaMask _ _ _)).
  - reflexivity.
  - right. left. reflexivity.
  - reflexivity.
Defined.

Lemma connect_chain_add_failure_keeps_wallet_witness :
  connectWallet (fun p => p) (Some (DemoWallet.only DemoWallet.stubborn))
    DemoWallet.disconnected
  = (with_error (connectFailure (JsString.lit "User rejected the request."))
       (with_account (JsString.lit "0xbb")
          (with_walletClient
             (Some (selectProvider (DemoWallet.only DemoWallet.stubborn)))
             DemoWallet.disconnected)),
     [ReqEthRequestAccounts; ReqSwitchEthereumChain liskSepoliaChainId;
      ReqAddEthereumChain liskSepoliaParams]).
Proof.
  refine (@connect_chain_add_failure_keeps_wallet _ (fun p => p)
            (DemoWallet.only DemoWallet.stubborn) DemoWallet.disconnected
            (JsString.lit "0xbb") []
            (JsString.lit "Unrecognized chain ID") (Some 4001)
            (JsString.lit "User rejected the request.") _ _ _);
    reflexivity.
Defined.

Lemma connect_ignores_other_switch_errors_witness :
  connectWallet (fun p => p)
    (Some (DemoWallet.only DemoWallet.declinesSwitch)) DemoWallet.staleError
  = (with_account (JsString.lit "0xcc")
       (with_walletClient
          (Some (selectProvider (DemoWallet.only DemoWallet.declinesSwitch)))
          (with_error [] DemoWallet.staleError)),
     [ReqEthRequestAccounts; ReqSwitchEthereumChain liskSepoliaChainId]).
Proof.
  refine (@connect_ignores_other_switch_errors _ (fun p => p)
            (DemoWallet.only DemoWallet.declinesSwitch) DemoWallet.staleError
            (JsString.lit "0xcc") [] (Some 4001)
            (JsString.lit "User rejected the request.") _ _ _).
  - reflexivity.
  - reflexivity.
  - discriminate.
Defined.

(** A 42-character address is shown as 13 characters. *)
Example formatAddress_contract :
  formatAddress (JsString.lit "0x389c7aF690CaD99f2FB604B2fe4c5b4bff9EFF2e")
  = JsString.lit "0x389c...FF2e"
  /\ formatAddress (JsString.lit "ab") = JsString.lit "ab...ab".
Proof. split; reflexivity. Qed.


(** C1, as the specification states it, fails: success of every point-read
    is not enough, because the stored record is whatever the ledger
    returns and its id is not compared with the id that was read.  On the
    ledger with tasks 1, 2 and 3 created, where the reads succeed with
    records of ids 4, 9 and 9, the stored ids are [[4; 9; 9]]: none of them
    created, and 9 twice. *)
Lemma reconstructed_ids_counterexample :
  ~ (forall (client : Client Demo.World Demo.Request Demo.WalletClient)
            (s : Sys Demo.World Demo.Request Demo.WalletClient) logs,
       getLogs client (world s) = Ok logs ->
       (forall i, createdIn logs i ->
          exists t, readContract client (world s) i = Ok t) ->
       let result := tasks (store (snd (loadTasksAndEvents client s))) in
       NoDup (List.map Task.id result)
       /\ (forall i, In i (List.map Task.id result) <-> createdIn logs i)).
Proof.
  intros H.
  destruct (H Demo.mislabellingClient (Demo.threeSys []) Demo.threeLogs
              eq_refl) as [Hnd _].
  - intros i _. exists (Demo.mislabelledTask i). reflexivity.
  - assert (E : List.map Task.id
                  (tasks (store (snd (loadTasksAndEvents
                                        Demo.mislabellingClient
                                        (Demo.threeSys [])))))
                = [4; 9; 9]) by reflexivity.
    rewrite E in Hnd.
    apply NoDup_cons_iff in Hnd. destruct Hnd as [_ Hnd].
    apply NoDup_cons_iff in Hnd. destruct Hnd as [Hin _].
    apply Hin. left. reflexivity.
Qed.
